(** * API specification generator of zato-server

    A shallow embedding of [zato/server/apispec/__init__.py]: the docstring
    normaliser and the parameter classifier of [ServiceInfo], the call graph
    built by [Generator.parse] and the sorted, filtered view returned by
    [Generator.get_info].

    Conventions of the embedding:
    - Python text is [string]. The module is under [unicode_literals], and
      the text handed to [format_docstring] is produced by a unicode format
      string, so text follows the rules of [unicode] objects, here over the
      code points below 256.
    - A Python dict is a [gmap]; iterating it walks [map_to_list]. The
      service store handed to the generator is the list of its items in the
      order [iteritems] yields them.
    - A method that mutates [self] takes the object and returns the new one.
      The attributes of a [Generator] persist from one call to the next, so
      [get_info] also returns the generator it leaves behind.
    - A subscript or dict access that can raise does so in the [result]
      monad.
    - [format_docstring] is imported from docformatter. The first parts
      are about what the methods compute from the text its call returns;
      the part on the call of [format_docstring] reads the call as it is, a
      text or an exception, and relates the two. *)

From stdpp Require Import gmap strings list fin_maps sorting.
From Stdlib Require Import Ascii.

(** ** Exceptions *)

Inductive PyError := IndexError | KeyError | AssertionError.

Inductive result (A : Type) : Type :=
| Ok (a : A)
| Raise (e : PyError).
Arguments Ok {A} a.
Arguments Raise {A} e.

#[global] Instance result_ret : MRet result := @Ok.
#[global] Instance result_bind : MBind result := λ A B f m,
  match m with Ok a => f a | Raise e => Raise e end.
#[global] Instance result_fmap : FMap result := λ A B f m,
  match m with Ok a => Ok (f a) | Raise e => Raise e end.

(** [l[i]] for a non-negative [i]. *)
Definition getitem {A} (l : list A) (i : nat) : result A :=
  match l !! i with Some x => Ok x | None => Raise IndexError end.

(** [d[k]] on a dict. *)
Definition dict_getitem {A} (d : gmap string A) (k : string) : result A :=
  match d !! k with Some x => Ok x | None => Raise KeyError end.

(** ** Text *)

Module Text.

Local Open Scope char_scope.

Definition dquote : ascii := "034".
Definition period : ascii := ".".
Definition LF : ascii := "010".
Definition CR : ascii := "013".

(** Line boundaries of [unicode.splitlines]. *)
Definition is_linebreak (c : ascii) : bool :=
  match c with
  | "010" | "011" | "012" | "013" | "028" | "029" | "030" | "133" => true
  | _ => false
  end.

(** White space of [unicode.strip]. *)
Definition is_space (c : ascii) : bool :=
  match c with
  | "009" | "010" | "011" | "012" | "013"
  | "028" | "029" | "030" | "031" | " " | "133" | "160" => true
  | _ => false
  end.

Definition truthy (s : string) : bool :=
  match s with EmptyString => false | String _ _ => true end.

(** [s[-1]] *)
Fixpoint last_char (s : string) : option ascii :=
  match s with
  | EmptyString => None
  | String c EmptyString => Some c
  | String _ s' => last_char s'
  end.

Definition getitem_last (s : string) : result ascii :=
  match last_char s with Some c => Ok c | None => Raise IndexError end.

(** [s[:-1]] *)
Fixpoint drop_last (s : string) : string :=
  match s with
  | EmptyString => EmptyString
  | String _ EmptyString => EmptyString
  | String c s' => String c (drop_last s')
  end.

(** [s.lstrip(chars)] and [s.rstrip(chars)], the set of characters given
    by its membership test. *)
Fixpoint lstrip_by (p : ascii → bool) (s : string) : string :=
  match s with
  | EmptyString => EmptyString
  | String c s' => if p c then lstrip_by p s' else s
  end.

Fixpoint rstrip_by (p : ascii → bool) (s : string) : string :=
  match s with
  | EmptyString => EmptyString
  | String c s' =>
      let r := rstrip_by p s' in
      if negb (truthy r) && p c then EmptyString else String c r
  end.

Definition lstrip : string → string := lstrip_by is_space.
Definition rstrip : string → string := rstrip_by is_space.
Definition strip (s : string) : string := lstrip (rstrip s).

Definition is_dquote (c : ascii) : bool := bool_decide (c = dquote).

(** [sep.join(l)] *)
Fixpoint join (sep : string) (l : list string) : string :=
  match l with
  | [] => EmptyString
  | [s] => s
  | s :: l' => s +:+ sep +:+ join sep l'
  end.

(** [s.splitlines()]: [cur] is the line being read, reversed; [after_cr]
    says that the previous character was a carriage return, which a line
    feed then completes instead of opening a line of its own. A line is
    closed by its boundary, so no empty line follows a final boundary. *)
Fixpoint splitlines_go (after_cr : bool) (cur : string) (s : string)
  : list string :=
  match s with
  | EmptyString => if truthy cur then [String.rev cur] else []
  | String c s' =>
      if bool_decide (c = LF) then
        if after_cr then splitlines_go false EmptyString s'
        else String.rev cur :: splitlines_go false EmptyString s'
      else if bool_decide (c = CR) then
        String.rev cur :: splitlines_go true EmptyString s'
      else if is_linebreak c then
        String.rev cur :: splitlines_go false EmptyString s'
      else splitlines_go false (String c cur) s'
  end.

Definition splitlines : string → list string :=
  splitlines_go false EmptyString.

(** [s.startswith(prefix)] *)
Definition startswith (s prefix : string) : bool := String.prefix prefix s.

Definition newline : string := String LF EmptyString.

(** ['"{}"'.format(doc)] *)
Definition quoted (doc : string) : string :=
  String dquote (doc +:+ String dquote EmptyString).

End Text.

(** ** Service classes and the registry

    What the generator reads off a service class: its [invokes] attribute,
    its [SimpleIO] declaration and its [__doc__]. *)

(** The value of [getattr(service_class, 'invokes', None)]. *)
Inductive PyInvokes :=
| InvAbsent                       (* no attribute, or None *)
| InvStr (s : string)             (* invokes = 'foo' *)
| InvList (l : list string)       (* invokes = ['foo', 'bar'] *)
| InvTuple (l : list string)      (* invokes = ('foo', 'bar') *)
| InvOther (truth : bool).        (* any other object, with its truth value *)

(** Classes of SimpleIO elements, [AsIs] among them. *)
Inductive ElemClass :=
| AsIs
| Elem (qualname : string).

(** A declared parameter: a plain string, or an element object with a class
    and a [name]. *)
Inductive Param :=
| PStr (s : string)
| PElem (cls : ElemClass) (name : string).

(** [param.__class__] *)
Inductive PyClass :=
| ClsStr
| ClsElem (cls : ElemClass).

#[global] Instance ElemClass_eq_dec : EqDecision ElemClass.
Proof. solve_decision. Defined.
#[global] Instance Param_eq_dec : EqDecision Param.
Proof. solve_decision. Defined.
#[global] Instance PyClass_eq_dec : EqDecision PyClass.
Proof. solve_decision. Defined.

Definition class_of (param : Param) : PyClass :=
  match param with
  | PStr _ => ClsStr
  | PElem cls _ => ClsElem cls
  end.

(** [isinstance(param, AsIs)] *)
Definition is_AsIs (param : Param) : bool :=
  match param with PElem AsIs _ => true | _ => false end.

(** The [SimpleIO] class attribute; a group that is not declared reads as
    the empty list, an element name that is not declared as [None]. *)
Record SimpleIODecl := {
  decl_input_required : list Param;
  decl_output_required : list Param;
  decl_input_optional : list Param;
  decl_output_optional : list Param;
  decl_request_elem : option string;
  decl_response_elem : option string;
}.

Record ServiceClass := {
  cls_invokes : PyInvokes;
  cls_SimpleIO : option SimpleIODecl;
  cls_doc : option string;
}.

(** An entry of the service store. *)
Record Details := {
  details_name : string;
  details_service_class : ServiceClass;
}.

(** ** What the module imports

    [format_docstring] comes from the docformatter package; [SIO_TYPE_MAP],
    [is_bool] and [is_int] from [zato.server.service.reqresp.sio] and the
    [SIMPLE_IO] constants from [zato.common]. None of them is part of this
    module: the development is parametric in them. *)

(** An entry of [SIO_TYPE_MAP]: a dialect with its name, its type pairs and
    its map from element classes to type pairs ([None] for a KeyError). *)
Record ApiSpecInfo := {
  spec_name : string;
  DEFAULT : string * string;
  BOOLEAN : string * string;
  INTEGER : string * string;
  spec_map : PyClass → option (string * string);
}.

Class Imports := {
  (** [format_docstring(indentation, docstring, post_description_blank=False)]:
      the text the call returns. The call can also raise; it is read as a
      text or an exception in [Docformatter] and [Raising] below, where the
      methods return what they return here whenever the call returns. *)
  format_docstring : string → string → string;
  SIO_TYPE_MAP : list ApiSpecInfo;
  is_bool : Param → string → list string → bool;
  is_int : string → list string → list string → bool;
  BOOL_PARAMETERS_SUFFIXES : list string;
  INT_PARAMETERS_VALUES : list string;
  INT_PARAMETERS_SUFFIXES : list string;
}.

(** ** ServiceInfo *)

Record Docstring := {
  doc_summary : string;
  doc_description : string;
  doc_full : string;
}.

(** [Docstring()] *)
Definition Docstring_init : Docstring :=
  {| doc_summary := ""; doc_description := ""; doc_full := "" |}.

Record ParamInfo := {
  pi_name : string;
  pi_type : string;
  pi_subtype : string;
}.

(** [SimpleIO(api_spec_info).to_bunch()] *)
Record SimpleIOBunch := {
  sio_input_required : list ParamInfo;
  sio_output_required : list ParamInfo;
  sio_input_optional : list ParamInfo;
  sio_output_optional : list ParamInfo;
  sio_request_elem : option string;
  sio_response_elem : option string;
  sio_spec_name : string;
}.

Record ServiceInfo := {
  info_name : string;
  info_service_class : ServiceClass;
  info_simple_io : gmap string SimpleIOBunch;
  info_docstring : Docstring;
  info_invokes : list string;
  info_invoked_by : list string;
}.

Definition set_invokes (l : list string) (self : ServiceInfo) : ServiceInfo :=
  {| info_name := info_name self;
     info_service_class := info_service_class self;
     info_simple_io := info_simple_io self;
     info_docstring := info_docstring self;
     info_invokes := l;
     info_invoked_by := info_invoked_by self |}.

Definition set_invoked_by (l : list string) (self : ServiceInfo) : ServiceInfo :=
  {| info_name := info_name self;
     info_service_class := info_service_class self;
     info_simple_io := info_simple_io self;
     info_docstring := info_docstring self;
     info_invokes := info_invokes self;
     info_invoked_by := l |}.

Definition set_simple_io (m : gmap string SimpleIOBunch) (self : ServiceInfo)
  : ServiceInfo :=
  {| info_name := info_name self;
     info_service_class := info_service_class self;
     info_simple_io := m;
     info_docstring := info_docstring self;
     info_invokes := info_invokes self;
     info_invoked_by := info_invoked_by self |}.

Definition set_docstring (d : Docstring) (self : ServiceInfo) : ServiceInfo :=
  {| info_name := info_name self;
     info_service_class := info_service_class self;
     info_simple_io := info_simple_io self;
     info_docstring := d;
     info_invokes := info_invokes self;
     info_invoked_by := info_invoked_by self |}.

Section ServiceInfo.
Context `{Imports}.

(** [ServiceInfo._add_services_from_invokes]: [self.invokes] is appended
    to, or extended by the declared sequence as it stands. *)
Definition _add_services_from_invokes (self : ServiceInfo) : ServiceInfo :=
  match cls_invokes (info_service_class self) with
  | InvAbsent => self
  | InvStr s =>
      if Text.truthy s then set_invokes (info_invokes self ++ [s]) self
      else self
  | InvList l | InvTuple l =>
      match l with
      | [] => self
      | _ => set_invokes (info_invokes self ++ l) self
      end
  | InvOther _ => self
  end.

(** The branch of [_add_simple_io] that picks [type_info] for one
    parameter of one dialect. *)
Definition type_info (api_spec_info : ApiSpecInfo) (param : Param)
    (param_name : string) : string * string :=
  if is_AsIs param then DEFAULT api_spec_info
  else if is_bool param param_name BOOL_PARAMETERS_SUFFIXES
    then BOOLEAN api_spec_info
  else if is_int param_name INT_PARAMETERS_VALUES INT_PARAMETERS_SUFFIXES
    then INTEGER api_spec_info
  else match spec_map api_spec_info (class_of param) with
       | Some ti => ti
       | None => DEFAULT api_spec_info
       end.

(** The body of the loop over one group: the [_param_info] of [param]. *)
Definition param_info (api_spec_info : ApiSpecInfo) (param : Param)
  : ParamInfo :=
  (* param if isinstance(param, basestring) else param.name *)
  let param_name :=
    match param with PStr s => s | PElem _ name => name end in
  let ti := type_info api_spec_info param param_name in
  {| pi_name := param_name; pi_type := ti.1; pi_subtype := ti.2 |}.

(** The loop over one group, [_param_list] growing by [append]. *)
Definition param_list (api_spec_info : ApiSpecInfo) (params : list Param)
  : list ParamInfo :=
  foldl (λ _param_list param, _param_list ++ [param_info api_spec_info param])
        [] params.

(** [ServiceInfo._add_simple_io] *)
Definition _add_simple_io (self : ServiceInfo) : ServiceInfo :=
  match cls_SimpleIO (info_service_class self) with
  | None => self
  | Some sio =>
      set_simple_io
        (foldl (λ simple_io api_spec_info,
                  <[spec_name api_spec_info :=
                      {| sio_input_required :=
                           param_list api_spec_info (decl_input_required sio);
                         sio_output_required :=
                           param_list api_spec_info (decl_output_required sio);
                         sio_input_optional :=
                           param_list api_spec_info (decl_input_optional sio);
                         sio_output_optional :=
                           param_list api_spec_info (decl_output_optional sio);
                         sio_request_elem := decl_request_elem sio;
                         sio_response_elem := decl_response_elem sio;
                         sio_spec_name := spec_name api_spec_info |}]>
                    simple_io)
               (info_simple_io self) SIO_TYPE_MAP)
        self
  end.

(** [ServiceInfo.set_config] *)
Definition set_config (self : ServiceInfo) : ServiceInfo :=
  _add_simple_io (_add_services_from_invokes self).

(** The pattern of both trailing-period checks of [set_summary_desc]:
    [if other and full[-1] == '.' and full[-1] != other[-1]: full = full[:-1]],
    the conjunction evaluated left to right. *)
Definition drop_period_unless (other full_docstring : string) : result string :=
  if Text.truthy other then
    c ← Text.getitem_last full_docstring;
    if bool_decide (c = Text.period) then
      c' ← Text.getitem_last full_docstring;
      o ← Text.getitem_last other;
      if bool_decide (c' ≠ o) then Ok (Text.drop_last full_docstring)
      else Ok full_docstring
    else Ok full_docstring
  else Ok full_docstring.

(** [ServiceInfo.set_summary_desc] *)
Definition set_summary_desc (self : ServiceInfo) : result ServiceInfo :=
  match cls_doc (info_service_class self) with
  | None => Ok self
  | Some doc =>
    if negb (Text.truthy doc) then Ok self else
    let split := Text.splitlines doc in
    summary ← getitem split 0;
    doc ← (if bool_decide (1 < length split) then
             first ← getitem split 0;
             Ok (Text.join Text.newline ([first] ++ [""] ++ drop 1 split))
           else Ok doc);
    let full_docstring := format_docstring "" (Text.quoted doc) in
    let full_docstring :=
      Text.rstrip_by Text.is_dquote (Text.lstrip_by Text.is_dquote full_docstring) in
    let description := Text.splitlines full_docstring in
    description ← (if bool_decide (1 < length description) then
                     second ← getitem description 1;
                     if negb (Text.truthy second)
                     then Ok (Text.join Text.newline (drop 2 description))
                     else Ok ""
                   else Ok "");
    full_docstring ← (if Text.truthy full_docstring then
                        full_docstring ←
                          drop_period_unless description full_docstring;
                        drop_period_unless summary full_docstring
                      else Ok full_docstring);
    Ok (set_docstring
          {| doc_summary := Text.strip summary;
             doc_description := description;
             doc_full := Text.rstrip full_docstring |}
          self)
  end.

(** [ServiceInfo.parse] *)
Definition ServiceInfo_parse (self : ServiceInfo) : result ServiceInfo :=
  set_summary_desc (set_config self).

(** [ServiceInfo.__init__]: the attributes as assigned before
    [self.parse()], then the call. *)
Definition ServiceInfo_attrs (name : string) (service_class : ServiceClass)
  : ServiceInfo :=
  {| info_name := name;
     info_service_class := service_class;
     info_simple_io := ∅;
     info_docstring := Docstring_init;
     info_invokes := [];
     info_invoked_by := [] |}.

Definition ServiceInfo_init (name : string) (service_class : ServiceClass)
  : result ServiceInfo :=
  ServiceInfo_parse (ServiceInfo_attrs name service_class).

End ServiceInfo.

(** ** Generator *)

Record Generator := {
  gen_service_store_services : list (string * Details);
  gen_filter : option string;
  gen_services : gmap string ServiceInfo;
  (** Service name -> list of services this service invokes *)
  gen_invokes : gmap string (list string);
  (** Service name -> list of services this service is invoked by *)
  gen_invoked_by : gmap string (list string);
}.

(** [Generator.__init__] *)
Definition Generator_init (service_store_services : list (string * Details))
    (filter : option string) : Generator :=
  {| gen_service_store_services := service_store_services;
     gen_filter := filter;
     gen_services := ∅;
     gen_invokes := ∅;
     gen_invoked_by := ∅ |}.

(** The [docs] of an output record. *)
Record Docs := {
  docs_summary : string;
  docs_description : string;
  docs_full : string;
}.

(** An output record, [item.toDict()]. *)
Record Item := {
  item_name : string;
  item_docs : Docs;
  item_invokes : list string;
  item_invoked_by : list string;
  item_simple_io : gmap string SimpleIOBunch;
}.

(** [sorted] on names. *)
Definition sorted (l : list string) : list string := merge_sort String.le l.

(** The keys of a dict in the order it is iterated. *)
Definition keys {A} (d : gmap string A) : list string := (map_to_list d).*1.

(** [sources = d.setdefault(target, []); sources.append(source)] *)
Definition setdefault_append (d : gmap string (list string))
    (target source : string) : gmap string (list string) :=
  <[target := default [] (d !! target) ++ [source]]> d.

(** [if self.filter and name != self.filter] *)
Definition filtered_out (filter : option string) (name : string) : bool :=
  match filter with
  | None => false
  | Some f => Text.truthy f && bool_decide (name ≠ f)
  end.

Section Generator.
Context `{Imports}.

(** First loop of [Generator.parse], over the items of the service store. *)
Fixpoint parse_services (ignore_prefix : string)
    (items : list (string * Details)) (services : gmap string ServiceInfo)
  : result (gmap string ServiceInfo) :=
  match items with
  | [] => Ok services
  | (impl_name, details) :: items =>
      if negb (Text.startswith impl_name ignore_prefix) then
        info ← ServiceInfo_init (details_name details)
                                (details_service_class details);
        parse_services ignore_prefix items (<[info_name info := info]> services)
      else parse_services ignore_prefix items services
  end.

(** Second loop: [self.invokes[name] = info.invokes]. *)
Definition parse_invokes (services : gmap string ServiceInfo)
    (invokes : gmap string (list string)) : gmap string (list string) :=
  foldl (λ invokes '(name, info), <[name := info_invokes info]> invokes)
        invokes (map_to_list services).

(** Third loop: every source is appended to the accumulator of each of
    its targets. *)
Definition parse_invoked_by (invokes invoked_by : gmap string (list string))
  : gmap string (list string) :=
  foldl (λ invoked_by '(source, targets),
           foldl (λ invoked_by target,
                    setdefault_append invoked_by target source)
                 invoked_by targets)
        invoked_by (map_to_list invokes).

(** Fourth loop: [info.invoked_by = self.invoked_by.get(name, [])] on
    every service of the dict. The list assigned is the accumulator
    itself; nothing is appended to it before the next [parse], which
    assigns to every service again, so reading it by value is exact. *)
Definition parse_assign (services : gmap string ServiceInfo)
    (invoked_by : gmap string (list string)) : gmap string ServiceInfo :=
  map_imap (λ name info,
              Some (set_invoked_by (default [] (invoked_by !! name)) info))
           services.

(** [Generator.parse] *)
Definition parse (self : Generator) (ignore_prefix : string)
  : result Generator :=
  services ← parse_services ignore_prefix
               (gen_service_store_services self) (gen_services self);
  let invokes := parse_invokes services (gen_invokes self) in
  let invoked_by := parse_invoked_by invokes (gen_invoked_by self) in
  Ok {| gen_service_store_services := gen_service_store_services self;
        gen_filter := gen_filter self;
        gen_services := parse_assign services invoked_by;
        gen_invokes := invokes;
        gen_invoked_by := invoked_by |}.

(** The record built from one [ServiceInfo]. *)
Definition item_of (info : ServiceInfo) : Item :=
  {| item_name := info_name info;
     item_docs :=
       {| docs_summary := doc_summary (info_docstring info);
          docs_description := doc_description (info_docstring info);
          docs_full := doc_full (info_docstring info) |};
     item_invokes := sorted (info_invokes info);
     item_invoked_by := sorted (info_invoked_by info);
     item_simple_io := info_simple_io info |}.

(** The loop of [Generator.get_info] over the sorted names. *)
Fixpoint get_info_loop (self : Generator) (names : list string)
    (out : list Item) : result (list Item) :=
  match names with
  | [] => Ok out
  | name :: names =>
      if filtered_out (gen_filter self) name then get_info_loop self names out
      else
        info ← dict_getitem (gen_services self) name;
        get_info_loop self names (out ++ [item_of info])
  end.

(** [Generator.get_info]: the records, and the generator after the call. *)
Definition get_info (self : Generator) (ignore_prefix : string)
  : result (list Item * Generator) :=
  self ← parse self ignore_prefix;
  out ← get_info_loop self (sorted (keys (gen_services self))) [];
  Ok (out, self).

(** The graph as the records show it: each name with its [invokes] and its
    [invoked_by]. *)
Definition edges_of (r : list Item * Generator)
  : list (string * list string * list string) :=
  (λ item, (item_name item, item_invokes item, item_invoked_by item)) <$> r.1.

(** The docs as the records show them: each summary with its description. *)
Definition docs_of (r : list Item * Generator) : list (string * string) :=
  (λ item, (docs_summary (item_docs item), docs_description (item_docs item)))
    <$> r.1.

(** A second [get_info] on the generator the first one leaves behind. *)
Definition get_info_again (self : Generator) (ignore_prefix : string)
  : result (list Item * Generator) :=
  r ← get_info self ignore_prefix;
  get_info r.2 ignore_prefix.

End Generator.

(** ** A sample environment

    A formatter and a dialect table to run the model on. The formatter is a
    small stand-in for docformatter: the quoted text is taken out of its
    quotes and trimmed, its first line is the summary, the rest trimmed is
    the description; the summary gets a final period when it ends in a
    letter or a digit, and the result comes back between triple quotes, the
    description after an empty line and followed by a newline. *)

Definition unquote (s : string) : string :=
  match s with
  | EmptyString => EmptyString
  | String _ s' => Text.drop_last s'
  end.

Definition triple_quote : string :=
  String Text.dquote (String Text.dquote (String Text.dquote EmptyString)).

Definition is_alnum (c : ascii) : bool :=
  let n := nat_of_ascii c in
  (48 <=? n) && (n <=? 57) || (65 <=? n) && (n <=? 90)
  || (97 <=? n) && (n <=? 122).

Definition sample_normalize_summary (summary : string) : string :=
  let summary := Text.rstrip summary in
  match Text.last_char summary with
  | Some c => if is_alnum c then summary +:+ "." else summary
  | None => summary
  end.

Definition sample_format_docstring (indentation docstring : string) : string :=
  let contents := Text.strip (unquote (Text.strip docstring)) in
  match Text.splitlines contents with
  | [] => triple_quote +:+ triple_quote
  | summary :: rest =>
      let description := Text.strip (Text.join Text.newline rest) in
      if Text.truthy description then
        triple_quote +:+ sample_normalize_summary summary
        +:+ Text.newline +:+ Text.newline +:+ description +:+ Text.newline
        +:+ triple_quote
      else triple_quote +:+ sample_normalize_summary contents +:+ triple_quote
  end.

Definition sample_dialect : ApiSpecInfo :=
  {| spec_name := "zato";
     DEFAULT := ("string", "string");
     BOOLEAN := ("boolean", "boolean");
     INTEGER := ("integer", "int32");
     spec_map := λ c,
       match c with
       | ClsElem (Elem "Boolean") => Some ("boolean", "boolean")
       | ClsElem (Elem "Integer") => Some ("integer", "int32")
       | _ => None
       end |}.

Definition has_prefix_in (prefixes : list string) (s : string) : bool :=
  existsb (λ p, String.prefix p s) prefixes.

Definition has_suffix_in (suffixes : list string) (s : string) : bool :=
  existsb (λ x, String.prefix (String.rev x) (String.rev s)) suffixes.

Definition sample_imports : Imports :=
  {| format_docstring := sample_format_docstring;
     SIO_TYPE_MAP := [sample_dialect];
     is_bool := λ param param_name prefixes,
       has_prefix_in prefixes param_name
       || bool_decide (class_of param = ClsElem (Elem "Boolean"));
     is_int := λ param_name values suffixes,
       bool_decide (param_name ∈ values) || has_suffix_in suffixes param_name;
     BOOL_PARAMETERS_SUFFIXES := ["is_"; "needs_"; "should_"];
     INT_PARAMETERS_VALUES := ["id"];
     INT_PARAMETERS_SUFFIXES := ["_count"; "_id"; "_size"; "_timeout"] |}.

(** The registry of the specification's end-to-end example. *)
Definition no_doc_class (invokes : PyInvokes) : ServiceClass :=
  {| cls_invokes := invokes; cls_SimpleIO := None; cls_doc := None |}.

Definition foo_bar_store : list (string * Details) :=
  [ ("pkg.Foo",
     {| details_name := "foo";
        details_service_class :=
          {| cls_invokes := InvList ["bar"];
             cls_SimpleIO := None;
             cls_doc := Some ("Do foo." +:+ Text.newline +:+ Text.newline
                              +:+ "Foo does things.") |} |});
    ("pkg.Bar",
     {| details_name := "bar";
        details_service_class :=
          {| cls_invokes := InvList [];
             cls_SimpleIO := None;
             cls_doc := Some "Do bar." |} |}) ].

(** ** The normaliser read as a function

    What [set_summary_desc] computes when nothing raises, stage by stage;
    the lemmas below show that nothing does, and that the method returns
    these values. *)

Definition ends_with_period (s : string) : bool :=
  bool_decide (Text.last_char s = Some Text.period).

(** One trailing-period check, with [other] the description or the summary. *)
Definition drop_period (other full_docstring : string) : string :=
  if Text.truthy other && ends_with_period full_docstring
     && bool_decide (Text.last_char full_docstring ≠ Text.last_char other)
  then Text.drop_last full_docstring
  else full_docstring.

(** The description as the specification words it: more than one line and
    a blank line at index 1 give the lines from index 2 on, joined. *)
Definition spec_description (full : string) : string :=
  let lines := Text.splitlines full in
  if bool_decide (1 < length lines ∧ lines !! 1 = Some "")
  then Text.join Text.newline (drop 2 lines)
  else "".

(** What a declaration of [invokes] contributes, in the order declared. *)
Definition declared_invokes (invokes : PyInvokes) : list string :=
  match invokes with
  | InvStr s => if Text.truthy s then [s] else []
  | InvList l | InvTuple l => l
  | InvAbsent | InvOther _ => []
  end.

Section Normaliser.
Context `{Imports}.

(** The first line of the docstring, as [split[0]] reads it. *)
Definition raw_summary (doc : string) : string :=
  default "" (head (Text.splitlines doc)).

(** The docstring with an empty line put after its first line. *)
Definition canonical_doc (doc : string) : string :=
  let split := Text.splitlines doc in
  if bool_decide (1 < length split)
  then Text.join Text.newline ([raw_summary doc] ++ [""] ++ drop 1 split)
  else doc.

(** The full text once formatted and out of its quotes. *)
Definition normalized_full (doc : string) : string :=
  Text.rstrip_by Text.is_dquote
    (Text.lstrip_by Text.is_dquote
       (format_docstring "" (Text.quoted (canonical_doc doc)))).

(** The full text after both trailing-period checks. *)
Definition deduplicated_full (doc : string) : string :=
  let full := normalized_full doc in
  if Text.truthy full
  then drop_period (raw_summary doc)
         (drop_period (spec_description full) full)
  else full.

Definition normalize (doc : option string) : Docstring :=
  match doc with
  | None => Docstring_init
  | Some doc =>
      if Text.truthy doc then
        {| doc_summary := Text.strip (raw_summary doc);
           doc_description := spec_description (normalized_full doc);
           doc_full := Text.rstrip (deduplicated_full doc) |}
      else Docstring_init
  end.

(** The full text the description is read from; the empty text of a
    docstring that is absent or empty. *)
Definition normalized_full_of (doc : option string) : string :=
  match doc with
  | None => ""
  | Some doc => if Text.truthy doc then normalized_full doc else ""
  end.

End Normaliser.

(** A string is a prefix of another. *)
Definition str_prefix (s t : string) : Prop := ∃ u, t = s +:+ u.

(** ** Notions used in the statements *)

(** A generator whose services are filed under their own names. *)
Definition keyed_by_name (services : gmap string ServiceInfo) : Prop :=
  ∀ name info, services !! name = Some info → info_name info = name.

(** The entry is kept by [parse]: its identifier does not start with the
    prefix. *)
Definition retained (ignore_prefix : string) (item : string * Details) : bool :=
  negb (Text.startswith item.1 ignore_prefix).

(** The records of the names that pass the filter. *)
Definition visible_items (filter : option string)
    (services : gmap string ServiceInfo) (names : list string) : list Item :=
  omap (λ name, if filtered_out filter name then None
                else item_of <$> services !! name) names.

(** Two services without docstring or schema, [foo] invoking [bar]. *)
Definition edge_store : list (string * Details) :=
  [ ("pkg.Foo", {| details_name := "foo";
                   details_service_class := no_doc_class (InvList ["bar"]) |});
    ("pkg.Bar", {| details_name := "bar";
                   details_service_class := no_doc_class InvAbsent |}) ].

(** A service invoking one whose identifier is under the prefix [zato]. *)
Definition dangling_store : list (string * Details) :=
  [ ("pkg.Foo", {| details_name := "foo";
                   details_service_class := no_doc_class (InvStr "helper") |});
    ("zato.Helper", {| details_name := "helper";
                       details_service_class := no_doc_class InvAbsent |}) ].

(** Every character of the text is white space. *)
Fixpoint all_space (s : string) : bool :=
  match s with
  | EmptyString => true
  | String c s' => Text.is_space c && all_space s'
  end.

(** ** Examples of the text operations *)

Example splitlines_ex1 :
  Text.splitlines ("a" +:+ Text.newline +:+ Text.newline +:+ "b c"
                   +:+ String Text.CR Text.newline +:+ "d" +:+ Text.newline)
  = ["a"; ""; "b c"; "d"].
Proof. reflexivity. Qed.

Example splitlines_ex2 :
  Text.splitlines "" = [] ∧ Text.splitlines Text.newline = [""].
Proof. split; reflexivity. Qed.

Example strip_ex :
  Text.strip "  Do foo.  " = "Do foo." ∧ Text.rstrip " a b " = " a b".
Proof. split; reflexivity. Qed.

Example join_ex :
  Text.join "," ["a"; "b"; "c"] = "a,b,c" ∧ Text.join "," [] = "".
Proof. split; reflexivity. Qed.

(** ** Text lemmas *)

Section TextLemmas.
Import Text.

Lemma truthy_true_iff s : truthy s = true ↔ s ≠ "".
Proof. destruct s; simpl; split; congruence. Qed.

Lemma truthy_length s : truthy s = true ↔ 0 < String.length s.
Proof. destruct s; simpl; split; (lia || congruence). Qed.

Lemma last_char_None s : last_char s = None ↔ s = "".
Proof.
  induction s as [|c s IH]; simpl; [done|].
  destruct s; [split; congruence|].
  rewrite IH. split; congruence.
Qed.

Lemma last_char_is_Some s : truthy s = true → is_Some (last_char s).
Proof.
  rewrite truthy_true_iff, <- last_char_None.
  destruct (last_char s); eauto. congruence.
Qed.

Lemma getitem_last_truthy s :
  truthy s = true → ∃ c, last_char s = Some c ∧ getitem_last s = Ok c.
Proof.
  intros [c Hc]%last_char_is_Some. exists c. unfold getitem_last.
  by rewrite Hc.
Qed.

Lemma length_drop_last s :
  String.length (drop_last s) = pred (String.length s).
Proof.
  induction s as [|c s IH]; simpl; [done|].
  destruct s; simpl in *; [done|]. by rewrite IH.
Qed.

Lemma app_nil_str t : "" +:+ t = t.
Proof. reflexivity. Qed.

Lemma app_cons_str c s t : String c s +:+ t = String c (s +:+ t).
Proof. reflexivity. Qed.

Lemma app_nil_r_str s : s +:+ "" = s.
Proof.
  induction s as [|c s IH]; [done|]. by rewrite app_cons_str, IH.
Qed.

Lemma app_assoc_str s t u : (s +:+ t) +:+ u = s +:+ (t +:+ u).
Proof.
  induction s as [|c s IH]; [done|]. by rewrite !app_cons_str, IH.
Qed.

Lemma app_truthy_r s t : truthy t = true → truthy (s +:+ t) = true.
Proof. destruct s; [by rewrite app_nil_str | by rewrite app_cons_str]. Qed.

Lemma last_char_app s t : truthy t = true → last_char (s +:+ t) = last_char t.
Proof.
  intros Ht. induction s as [|c s IH]; [done|].
  rewrite app_cons_str. simpl.
  pose proof (app_truthy_r s t Ht) as Hst.
  destruct (s +:+ t); [done | exact IH].
Qed.

Lemma str_prefix_refl s : str_prefix s s.
Proof. exists "". by rewrite app_nil_r_str. Qed.

Lemma str_prefix_trans s t u : str_prefix s t → str_prefix t u → str_prefix s u.
Proof.
  intros [a ->] [b ->]. exists (a +:+ b). apply app_assoc_str.
Qed.

Lemma str_prefix_cons c s t :
  str_prefix s t → str_prefix (String c s) (String c t).
Proof. intros [u ->]. by exists u. Qed.

Lemma str_prefix_nil s : str_prefix "" s.
Proof. by exists s. Qed.

Lemma drop_last_prefix s : str_prefix (drop_last s) s.
Proof.
  induction s as [|c s IH]; [apply str_prefix_refl|]. simpl.
  destruct s; [apply str_prefix_nil|]. by apply str_prefix_cons.
Qed.

Lemma rstrip_by_prefix p s : str_prefix (rstrip_by p s) s.
Proof.
  induction s as [|c s IH]; [apply str_prefix_refl|]. simpl.
  destruct (negb (truthy (rstrip_by p s)) && p c);
    [apply str_prefix_nil | by apply str_prefix_cons].
Qed.

(** Every line takes at least one character of the text: its boundary,
    or, for a last line without one, its content. *)
Lemma length_splitlines_go after_cr cur s :
  length (splitlines_go after_cr cur s)
  ≤ String.length s + (if truthy cur then 1 else 0).
Proof.
  revert after_cr cur. induction s as [|c s IH]; intros after_cr cur; simpl.
  { destruct (truthy cur); simpl; lia. }
  pose proof (IH false "") as IH1. pose proof (IH true "") as IH2.
  pose proof (IH false (String c cur)) as IH3. simpl in IH1, IH2, IH3.
  repeat case_bool_decide; repeat case_match; simpl; lia.
Qed.

Lemma length_splitlines s : length (splitlines s) ≤ String.length s.
Proof.
  unfold splitlines. pose proof (length_splitlines_go false "" s) as Hl.
  simpl in Hl. lia.
Qed.

Lemma splitlines_go_cur cur s :
  truthy cur = true → splitlines_go false cur s ≠ [].
Proof.
  revert cur. induction s as [|c s IH]; intros cur Hcur; simpl.
  { by rewrite Hcur. }
  repeat case_bool_decide; repeat case_match; try done. by apply IH.
Qed.

(** A docstring that is not empty has a first line. *)
Lemma splitlines_truthy s :
  truthy s = true → ∃ l ls, splitlines s = l :: ls.
Proof.
  intros Hs. destruct (splitlines s) as [|l ls] eqn:E; [|eauto].
  exfalso. destruct s as [|c s]; [done|].
  unfold splitlines in E. simpl in E.
  repeat case_bool_decide; repeat case_match; try done.
  by eapply splitlines_go_cur in E.
Qed.

End TextLemmas.

(** ** The normaliser never raises *)

Lemma bind_Ok {A B} (a : A) (f : A → result B) : (Ok a ≫= f) = f a.
Proof. reflexivity. Qed.

Section NormaliserLemmas.
Context `{Imports}.
Import Text.

Lemma drop_period_unless_eq other full :
  truthy full = true →
  drop_period_unless other full = Ok (drop_period other full).
Proof.
  intros Hfull. unfold drop_period_unless, drop_period, ends_with_period.
  destruct (truthy other) eqn:Hother; [|done]. simpl.
  destruct (getitem_last_truthy full Hfull) as (c & Hc & ->).
  destruct (getitem_last_truthy other Hother) as (o & Ho & Hgo).
  rewrite Hc, Ho. simpl.
  destruct (bool_decide_reflect (c = period)) as [->|Hne].
  - rewrite bool_decide_eq_true_2 by done. simpl. rewrite Hgo. simpl.
    destruct (bool_decide_reflect (period ≠ o)) as [Hpo|Hpo].
    + rewrite bool_decide_eq_true_2; [done | congruence].
    + rewrite bool_decide_eq_false_2; [done | ].
      intros Hn. apply Hpo. congruence.
  - rewrite bool_decide_eq_false_2; [done | congruence].
Qed.

Lemma join_truthy sep l : truthy (join sep l) = true → l ≠ [].
Proof. by destruct l. Qed.

(** A description that is not empty comes from a third line. *)
Lemma spec_description_truthy full :
  truthy (spec_description full) = true → 3 ≤ String.length full.
Proof.
  unfold spec_description. case_bool_decide; [|done].
  intros Hj%join_truthy. pose proof (length_splitlines full).
  destruct (splitlines full) as [|? [|? [|? ?]]]; simpl in *; try done; lia.
Qed.

Lemma drop_period_desc_truthy full :
  truthy full = true →
  truthy (drop_period (spec_description full) full) = true.
Proof.
  intros Hfull. unfold drop_period.
  destruct (truthy (spec_description full)) eqn:Hd; [|done].
  apply spec_description_truthy in Hd.
  case_match; [|done].
  apply truthy_length. rewrite length_drop_last. lia.
Qed.

(** The guarded read of [description[1]] agrees with the worded rule. *)
Lemma description_read full :
  (let description := splitlines full in
   if bool_decide (1 < length description) then
     second ← getitem description 1;
     if negb (truthy second)
     then Ok (join newline (drop 2 description))
     else Ok ""
   else Ok "") = Ok (spec_description full).
Proof.
  unfold spec_description. cbv zeta.
  destruct (splitlines full) as [|l0 [|l1 ls]] eqn:E; simpl.
  - done.
  - done.
  - destruct l1 as [|c l1].
    + rewrite bool_decide_eq_true_2; [done | split; [lia | done]].
    + rewrite bool_decide_eq_false_2; [done | intros [_ ?]; done].
Qed.

Lemma set_summary_desc_eq self :
  set_summary_desc self
  = Ok (match cls_doc (info_service_class self) with
        | Some doc =>
            if truthy doc then set_docstring (normalize (Some doc)) self else self
        | None => self
        end).
Proof.
  unfold set_summary_desc, normalize.
  destruct (cls_doc (info_service_class self)) as [doc|]; [|done].
  destruct (truthy doc) eqn:Hdoc; cbn [negb]; [|done].
  cbv zeta.
  destruct (splitlines_truthy doc Hdoc) as (l & ls & Hsplit).
  assert (Hraw : raw_summary doc = l) by (unfold raw_summary; by rewrite Hsplit).
  assert (Hget : getitem (splitlines doc) 0 = Ok l)
    by (unfold getitem; by rewrite Hsplit).
  rewrite Hget, !bind_Ok.
  assert (Hcanon :
    (if bool_decide (1 < length (splitlines doc)) then
       Ok (join newline ([l] ++ [""] ++ drop 1 (splitlines doc)))
     else Ok doc) = Ok (canonical_doc doc)).
  { unfold canonical_doc. rewrite Hraw. by case_bool_decide. }
  rewrite Hcanon, bind_Ok.
  fold (normalized_full doc).
  pose proof (description_read (normalized_full doc)) as Hread.
  cbv zeta in Hread. rewrite Hread, bind_Ok.
  unfold deduplicated_full. rewrite Hraw.
  destruct (truthy (normalized_full doc)) eqn:Hfull; [|done].
  rewrite drop_period_unless_eq, bind_Ok by done.
  rewrite drop_period_unless_eq, bind_Ok by by apply drop_period_desc_truthy.
  done.
Qed.

Lemma set_config_docstring self :
  info_docstring (set_config self) = info_docstring self.
Proof.
  unfold set_config, _add_simple_io, _add_services_from_invokes.
  repeat case_match; done.
Qed.

Lemma set_config_class self :
  info_service_class (set_config self) = info_service_class self.
Proof.
  unfold set_config, _add_simple_io, _add_services_from_invokes.
  repeat case_match; done.
Qed.

Lemma set_config_name self : info_name (set_config self) = info_name self.
Proof.
  unfold set_config, _add_simple_io, _add_services_from_invokes.
  repeat case_match; done.
Qed.

Lemma set_config_invokes self :
  info_invokes (set_config self)
  = info_invokes self ++ declared_invokes (cls_invokes (info_service_class self)).
Proof.
  unfold set_config, _add_simple_io, _add_services_from_invokes, declared_invokes.
  repeat case_match; simpl; by rewrite ?app_nil_r.
Qed.

Lemma set_config_invoked_by self :
  info_invoked_by (set_config self) = info_invoked_by self.
Proof.
  unfold set_config, _add_simple_io, _add_services_from_invokes.
  repeat case_match; done.
Qed.

Lemma set_summary_desc_init self :
  info_docstring self = Docstring_init →
  set_summary_desc self
  = Ok (set_docstring (normalize (cls_doc (info_service_class self))) self).
Proof.
  intros Hd. rewrite set_summary_desc_eq.
  assert (Hid : self = set_docstring Docstring_init self).
  { destruct self; simpl in *; by subst. }
  unfold normalize. repeat case_match; by rewrite <- ?Hid.
Qed.

(** The constructor returns, and what it returns. *)
Lemma ServiceInfo_init_eq name service_class :
  ServiceInfo_init name service_class
  = Ok (set_docstring (normalize (cls_doc service_class))
          (set_config (ServiceInfo_attrs name service_class))).
Proof.
  unfold ServiceInfo_init, ServiceInfo_parse.
  rewrite set_summary_desc_init by by rewrite set_config_docstring.
  by rewrite set_config_class.
Qed.

Lemma ServiceInfo_init_name name service_class info :
  ServiceInfo_init name service_class = Ok info → info_name info = name.
Proof.
  rewrite ServiceInfo_init_eq. intros [= <-]. simpl. by rewrite set_config_name.
Qed.

Lemma ServiceInfo_init_invokes name service_class info :
  ServiceInfo_init name service_class = Ok info →
  info_invokes info = declared_invokes (cls_invokes service_class).
Proof.
  rewrite ServiceInfo_init_eq. intros [= <-]. simpl.
  by rewrite set_config_invokes.
Qed.

End NormaliserLemmas.

(** ** The loops of [Generator.parse] *)

Section FoldLemmas.
Context {A B : Type} (f : A → B).

Lemma foldl_insert_notin (l : list (string * A)) (m : gmap string B) k :
  k ∉ l.*1 →
  foldl (λ m '(k, v), <[k := f v]> m) m l !! k = m !! k.
Proof.
  revert m. induction l as [|[k' v'] l IH]; intros m Hk; simpl; [done|].
  rewrite fmap_cons, not_elem_of_cons in Hk. destruct Hk as [Hne Hk].
  rewrite IH by done. simpl in Hne. by rewrite lookup_insert_ne.
Qed.

Lemma foldl_insert_in (l : list (string * A)) (m : gmap string B) k v :
  NoDup l.*1 → (k, v) ∈ l →
  foldl (λ m '(k, v), <[k := f v]> m) m l !! k = Some (f v).
Proof.
  revert m. induction l as [|[k' v'] l IH]; intros m Hnd Hin; simpl.
  { by apply elem_of_nil in Hin. }
  rewrite fmap_cons in Hnd. apply NoDup_cons in Hnd as [Hk' Hnd].
  apply elem_of_cons in Hin as [[= <- <-]|Hin].
  - rewrite foldl_insert_notin by done. apply lookup_insert_eq.
  - by apply IH.
Qed.
End FoldLemmas.

Section GraphLemmas.
Context `{Imports}.

Lemma parse_services_ok ignore_prefix items services :
  ∃ services', parse_services ignore_prefix items services = Ok services'.
Proof.
  revert services. induction items as [|[impl_name details] items IH];
    intros services; simpl; [eauto|].
  destruct (negb _); [|apply IH].
  rewrite ServiceInfo_init_eq, bind_Ok. apply IH.
Qed.

(** Entries under the prefix leave no trace in the first loop. *)
Lemma parse_services_filter ignore_prefix items services :
  parse_services ignore_prefix items services
  = parse_services ignore_prefix (filter (λ i, retained ignore_prefix i) items)
      services.
Proof.
  revert services. induction items as [|[impl_name details] items IH];
    intros services; [done|].
  simpl. destruct (negb (Text.startswith impl_name ignore_prefix)) eqn:E.
  - rewrite filter_cons_True by (apply Is_true_true; exact E).
    simpl. rewrite E, ServiceInfo_init_eq, !bind_Ok. apply IH.
  - rewrite filter_cons_False; [apply IH|].
    intros Hr%Is_true_true.
    change (negb (Text.startswith impl_name ignore_prefix) = true) in Hr.
    congruence.
Qed.

Lemma parse_services_keyed ignore_prefix items services services' :
  parse_services ignore_prefix items services = Ok services' →
  keyed_by_name services → keyed_by_name services'.
Proof.
  revert services. induction items as [|[impl_name details] items IH];
    intros services Hp Hk; simpl in Hp; [by injection Hp as <-|].
  destruct (negb _); [|by eapply IH].
  rewrite ServiceInfo_init_eq, bind_Ok in Hp. eapply IH; [exact Hp|].
  intros name info. rewrite lookup_insert. case_decide as Hn.
  - intros [= <-]. exact Hn.
  - apply Hk.
Qed.

(** The names filed by the first loop: those already there, and the names
    declared by the entries that are kept. *)
Lemma parse_services_keys ignore_prefix items services services' name :
  parse_services ignore_prefix items services = Ok services' →
  is_Some (services' !! name) ↔
  is_Some (services !! name)
  ∨ ∃ item, item ∈ items ∧ retained ignore_prefix item = true
            ∧ details_name item.2 = name.
Proof.
  revert services. induction items as [|[impl_name details] items IH];
    intros services Hp; simpl in Hp.
  { injection Hp as <-. split; [by left|].
    intros [?|(? & []%elem_of_nil & _)]. done. }
  destruct (negb (Text.startswith impl_name ignore_prefix)) eqn:E.
  - destruct (ServiceInfo_init _ _) as [info|] eqn:Hinfo; [|done].
    rewrite bind_Ok in Hp. apply ServiceInfo_init_name in Hinfo.
    rewrite (IH _ Hp), lookup_insert_is_Some. split.
    + intros [[Heq|[_ Hs]]|(item & Hin & Hr & Hn)].
      * right. exists (impl_name, details). split; [left|].
        split; [exact E | simpl; congruence].
      * by left.
      * right. exists item. split; [by right | done].
    + intros [Hs|(item & Hin & Hr & Hn)].
      * left. destruct (decide (info_name info = name)); [by left | by right].
      * apply elem_of_cons in Hin as [->|Hin].
        -- left. left. simpl in Hn. congruence.
        -- right. by exists item.
  - rewrite (IH _ Hp). split.
    + intros [?|(item & Hin & Hr & Hn)]; [by left|].
      right. exists item. split; [by right | done].
    + intros [?|(item & Hin & Hr & Hn)]; [by left|].
      apply elem_of_cons in Hin as [->|Hin].
      * unfold retained in Hr. simpl in Hr. congruence.
      * right. by exists item.
Qed.

Lemma parse_invokes_lookup services invokes name info :
  services !! name = Some info →
  parse_invokes services invokes !! name = Some (info_invokes info).
Proof.
  intros Hl. unfold parse_invokes.
  apply (foldl_insert_in info_invokes);
    [apply NoDup_fst_map_to_list | by apply elem_of_map_to_list].
Qed.

Lemma parse_invokes_lookup_None services invokes name :
  services !! name = None →
  parse_invokes services invokes !! name = invokes !! name.
Proof.
  intros Hl. unfold parse_invokes. apply (foldl_insert_notin info_invokes).
  intros [[k v] [Hk Hin]]%list_elem_of_fmap. simpl in Hk. subst k.
  apply elem_of_map_to_list in Hin. congruence.
Qed.

(** Appending keeps what an accumulator holds. *)
Lemma setdefault_append_mono d target source k x :
  x ∈ default [] (d !! k) →
  x ∈ default [] (setdefault_append d target source !! k).
Proof.
  intros Hx. unfold setdefault_append. rewrite lookup_insert.
  case_decide as Hk; [|done]. subst k. simpl. apply elem_of_app. by left.
Qed.

Lemma setdefault_append_here d target source :
  source ∈ default [] (setdefault_append d target source !! target).
Proof.
  unfold setdefault_append. rewrite lookup_insert_eq. simpl.
  apply elem_of_app. right. by left.
Qed.

Lemma append_targets_mono targets d source k x :
  x ∈ default [] (d !! k) →
  x ∈ default []
        (foldl (λ d target, setdefault_append d target source) d targets !! k).
Proof.
  revert d. induction targets as [|t targets IH]; intros d Hx; simpl; [done|].
  apply IH. by apply setdefault_append_mono.
Qed.

Lemma append_targets_here targets d source target :
  target ∈ targets →
  source ∈ default []
    (foldl (λ d target, setdefault_append d target source) d targets !! target).
Proof.
  revert d. induction targets as [|t targets IH]; intros d Hin; simpl.
  { by apply elem_of_nil in Hin. }
  apply elem_of_cons in Hin as [->|Hin]; [|by apply IH].
  apply append_targets_mono, setdefault_append_here.
Qed.

Lemma append_sources_mono (l : list (string * list string)) d k x :
  x ∈ default [] (d !! k) →
  x ∈ default []
        (foldl (λ d '(source, targets),
                  foldl (λ d target, setdefault_append d target source)
                        d targets) d l !! k).
Proof.
  revert d. induction l as [|[s ts] l IH]; intros d Hx; simpl; [done|].
  apply IH. by apply append_targets_mono.
Qed.

Lemma append_sources_here (l : list (string * list string)) d source targets target :
  (source, targets) ∈ l → target ∈ targets →
  source ∈ default []
    (foldl (λ d '(source, targets),
              foldl (λ d target, setdefault_append d target source)
                    d targets) d l !! target).
Proof.
  revert d. induction l as [|[s ts] l IH]; intros d Hin Ht; simpl.
  { by apply elem_of_nil in Hin. }
  apply elem_of_cons in Hin as [[= <- <-]|Hin]; [|by apply IH].
  by apply append_sources_mono, append_targets_here.
Qed.

(** What an accumulator holds was there before or is a source. *)
Lemma append_targets_elem targets d source k x :
  x ∈ default []
        (foldl (λ d target, setdefault_append d target source) d targets !! k) →
  x ∈ default [] (d !! k) ∨ x = source.
Proof.
  revert d. induction targets as [|t targets IH]; intros d Hx; simpl in Hx.
  { by left. }
  apply IH in Hx as [Hx|Hx]; [|by right].
  unfold setdefault_append in Hx. rewrite lookup_insert in Hx.
  case_decide as Hk; [|by left]. subst k. simpl in Hx.
  apply elem_of_app in Hx as [Hx|Hx]; [by left|].
  apply list_elem_of_singleton in Hx. by right.
Qed.

Lemma append_sources_elem (l : list (string * list string)) d k x :
  x ∈ default []
        (foldl (λ d '(source, targets),
                  foldl (λ d target, setdefault_append d target source)
                        d targets) d l !! k) →
  x ∈ default [] (d !! k) ∨ x ∈ l.*1.
Proof.
  revert d. induction l as [|[s ts] l IH]; intros d Hx; simpl in Hx.
  { by left. }
  apply IH in Hx as [Hx|Hx]; [|right; by right].
  apply append_targets_elem in Hx as [Hx|Hx]; [by left|].
  right. subst x. by left.
Qed.

(** Every edge of [invokes] is recorded at its target. *)
Lemma parse_invoked_by_closed invokes invoked_by source targets target :
  invokes !! source = Some targets → target ∈ targets →
  source ∈ default [] (parse_invoked_by invokes invoked_by !! target).
Proof.
  intros Hs Ht. unfold parse_invoked_by.
  eapply append_sources_here; [|exact Ht]. by apply elem_of_map_to_list.
Qed.

Lemma parse_assign_lookup services invoked_by name :
  parse_assign services invoked_by !! name
  = set_invoked_by (default [] (invoked_by !! name)) <$> services !! name.
Proof.
  unfold parse_assign. rewrite map_lookup_imap. by destruct (services !! name).
Qed.

Lemma parse_assign_keyed services invoked_by :
  keyed_by_name services → keyed_by_name (parse_assign services invoked_by).
Proof.
  intros Hk name info. rewrite parse_assign_lookup.
  destruct (services !! name) as [info0|] eqn:E; [|done].
  intros [= <-]. simpl. by apply Hk.
Qed.

(** [parse] returns. *)
Lemma parse_ok self ignore_prefix :
  ∃ services,
    parse_services ignore_prefix (gen_service_store_services self)
                   (gen_services self) = Ok services ∧
    parse self ignore_prefix
    = Ok {| gen_service_store_services := gen_service_store_services self;
            gen_filter := gen_filter self;
            gen_services :=
              parse_assign services
                (parse_invoked_by (parse_invokes services (gen_invokes self))
                                  (gen_invoked_by self));
            gen_invokes := parse_invokes services (gen_invokes self);
            gen_invoked_by :=
              parse_invoked_by (parse_invokes services (gen_invokes self))
                               (gen_invoked_by self) |}.
Proof.
  destruct (parse_services_ok ignore_prefix (gen_service_store_services self)
              (gen_services self)) as [services Hs].
  exists services. split; [done|]. unfold parse. by rewrite Hs.
Qed.

End GraphLemmas.

(** ** The loop of [Generator.get_info] *)

Section QueryLemmas.
Context `{Imports}.

Lemma sorted_Sorted l : Sorted String.le (sorted l).
Proof. apply Sorted_merge_sort, _. Qed.

Lemma elem_of_sorted l (x : string) : x ∈ sorted l ↔ x ∈ l.
Proof. unfold sorted. by rewrite merge_sort_Permutation. Qed.

Lemma elem_of_keys {A} (d : gmap string A) k : k ∈ keys d ↔ is_Some (d !! k).
Proof.
  unfold keys. rewrite list_elem_of_fmap. split.
  - intros [[k' v] [-> Hin]]. apply elem_of_map_to_list in Hin. by exists v.
  - intros [v Hv]. exists (k, v). split; [done|]. by apply elem_of_map_to_list.
Qed.

(** The lookups of the loop never raise on names taken from the dict. *)
Lemma get_info_loop_eq self names out :
  (∀ name, name ∈ names → is_Some (gen_services self !! name)) →
  get_info_loop self names out
  = Ok (out ++ visible_items (gen_filter self) (gen_services self) names).
Proof.
  revert out. induction names as [|name names IH]; intros out Hin; simpl.
  { by rewrite app_nil_r. }
  assert (Hrest : ∀ n, n ∈ names → is_Some (gen_services self !! n)).
  { intros n Hn. apply Hin. by right. }
  destruct (filtered_out (gen_filter self) name); [by apply IH|].
  destruct (Hin name) as [info Hinfo]; [by left|].
  unfold dict_getitem. rewrite Hinfo, bind_Ok. simpl.
  rewrite IH by done. by rewrite <- app_assoc.
Qed.

Lemma get_info_eq self ignore_prefix :
  ∃ self', parse self ignore_prefix = Ok self' ∧
    get_info self ignore_prefix
    = Ok (visible_items (gen_filter self') (gen_services self')
            (sorted (keys (gen_services self'))), self').
Proof.
  destruct (parse_ok self ignore_prefix) as (services & _ & Hp).
  eexists. split; [exact Hp|]. unfold get_info. rewrite Hp, bind_Ok.
  rewrite get_info_loop_eq; [done|].
  intros name. by rewrite elem_of_sorted, elem_of_keys.
Qed.

Lemma omap_cons_eq {A B} (f : A → option B) x l :
  omap f (x :: l) = match f x with Some y => y :: omap f l | None => omap f l end.
Proof. reflexivity. Qed.

Lemma visible_items_names filter services names :
  keyed_by_name services →
  (∀ name, name ∈ names → is_Some (services !! name)) →
  (∀ name, filtered_out filter name = false) →
  item_name <$> visible_items filter services names = names.
Proof.
  intros Hk Hin Hf. unfold visible_items.
  induction names as [|n names IH]; [done|]. rewrite omap_cons_eq, Hf.
  destruct (Hin n) as [info Hinfo]; [by left|]. rewrite Hinfo. simpl.
  rewrite (Hk _ _ Hinfo). f_equal. apply IH. intros m Hm. apply Hin. by right.
Qed.

Lemma visible_items_elem filter services names item :
  item ∈ visible_items filter services names →
  ∃ name info, name ∈ names ∧ filtered_out filter name = false
               ∧ services !! name = Some info ∧ item = item_of info.
Proof.
  unfold visible_items. rewrite list_elem_of_omap.
  intros (name & Hin & Hitem). exists name.
  destruct (filtered_out filter name); [done|].
  destruct (services !! name) as [info|]; [|done].
  exists info. simpl in Hitem. by injection Hitem as <-.
Qed.

Lemma keyed_by_name_empty : keyed_by_name ∅.
Proof. intros name info. by rewrite lookup_empty. Qed.

(** After [parse] on a new generator every service is under its name. *)
Lemma parse_keyed self ignore_prefix self' :
  keyed_by_name (gen_services self) →
  parse self ignore_prefix = Ok self' → keyed_by_name (gen_services self').
Proof.
  intros Hk. destruct (parse_ok self ignore_prefix) as (services & Hs & Hp).
  rewrite Hp. intros [= <-]. simpl. apply parse_assign_keyed.
  by eapply parse_services_keyed.
Qed.

End QueryLemmas.

(** ** The descriptor *)

Section Descriptor.
Context `{Imports}.
Import Text.

(** C2, as the code has it: the descriptor's [invokes] is the declaration
    in the order written, duplicates kept: a sequence gives its elements as
    they are, a string that is not empty gives one element, and an absent
    declaration, an empty string or any other object gives none. *)
Theorem invokes_as_declared name service_class :
  ∃ info, ServiceInfo_init name service_class = Ok info ∧
    info_invokes info
    = match cls_invokes service_class with
      | InvStr s => if truthy s then [s] else []
      | InvList l | InvTuple l => l
      | InvAbsent | InvOther _ => []
      end.
Proof.
  eexists. split; [apply ServiceInfo_init_eq|]. simpl.
  by rewrite set_config_invokes.
Qed.

Lemma param_list_fmap api_spec_info params :
  param_list api_spec_info params = param_info api_spec_info <$> params.
Proof.
  unfold param_list.
  assert (Hgen : ∀ acc,
    foldl (λ l param, l ++ [param_info api_spec_info param]) acc params
    = acc ++ (param_info api_spec_info <$> params)).
  { induction params as [|p params IH]; intros acc; simpl.
    - by rewrite app_nil_r.
    - rewrite IH, <- app_assoc. done. }
  apply Hgen.
Qed.

(** C6: a parameter marked [AsIs] gets the dialect's DEFAULT pair in every
    group and every dialect, whatever [is_bool] and [is_int] answer for its
    name: the [AsIs] test comes first. *)
Theorem AsIs_takes_default api_spec_info params i name :
  params !! i = Some (PElem AsIs name) →
  type_info api_spec_info (PElem AsIs name) name = DEFAULT api_spec_info
  ∧ param_list api_spec_info params !! i
    = Some {| pi_name := name;
              pi_type := (DEFAULT api_spec_info).1;
              pi_subtype := (DEFAULT api_spec_info).2 |}.
Proof.
  intros Hi. split; [done|].
  rewrite param_list_fmap, list_lookup_fmap, Hi. done.
Qed.

(** C7: the description is read off the normalized full text: with more
    than one line and an empty line at index 1 it is the lines from index 2
    on, joined by newlines, and the empty text otherwise. *)
Theorem description_from_full name service_class :
  ∃ info, ServiceInfo_init name service_class = Ok info ∧
    doc_description (info_docstring info)
    = spec_description (normalized_full_of (cls_doc service_class)).
Proof.
  eexists. split; [apply ServiceInfo_init_eq|]. simpl.
  unfold normalize, normalized_full_of.
  destruct (cls_doc service_class) as [doc|]; [|done].
  by destruct (truthy doc).
Qed.

End Descriptor.

(** ** The summary check reads the raw first line *)

Section SummaryCheck.
Context `{Imports}.
Import Text.

Lemma rstrip_by_all p s :
  (∀ c, is_space c = true → p c = true) → all_space s = true →
  rstrip_by p s = "".
Proof.
  intros Hp. induction s as [|c s IH]; [done|]. simpl.
  intros [Hc Hs]%andb_prop. rewrite (IH Hs). simpl. by rewrite (Hp c Hc).
Qed.

Lemma rstrip_by_app p s t :
  truthy (rstrip_by p t) = true →
  rstrip_by p (s +:+ t) = s +:+ rstrip_by p t.
Proof.
  intros Ht. induction s as [|c s IH]; [done|].
  rewrite !app_cons_str. simpl. rewrite IH.
  by rewrite (app_truthy_r s _ Ht).
Qed.

Lemma last_char_lstrip_by p s c :
  p c = false → last_char (lstrip_by p (s +:+ String c "")) = Some c.
Proof.
  intros Hc. induction s as [|a s IH].
  - rewrite app_nil_str. simpl. by rewrite Hc.
  - rewrite app_cons_str. simpl. destruct (p a); [exact IH|].
    rewrite <- app_cons_str. by rewrite last_char_app.
Qed.

Lemma last_char_all_space s c :
  all_space s = true → last_char s = Some c → is_space c = true.
Proof.
  induction s as [|a s IH]; [done|]. simpl.
  intros [Ha Hs]%andb_prop. destruct s; [congruence|]. by apply IH.
Qed.

(** The line trimmed ends in its period. *)
Lemma strip_period_space body ws :
  all_space ws = true →
  last_char (strip (body +:+ "." +:+ ws)) = Some period.
Proof.
  intros Hws. unfold strip, rstrip, lstrip.
  assert (Hr : rstrip_by is_space ("." +:+ ws) = ".").
  { change ("." +:+ ws) with (String period ws). simpl.
    by rewrite (rstrip_by_all is_space ws). }
  rewrite rstrip_by_app by by rewrite Hr. rewrite Hr.
  by apply last_char_lstrip_by.
Qed.

(** The raw line ends in white space, which is not a period. *)
Lemma last_char_period_space body ws :
  truthy ws = true → all_space ws = true →
  ∃ c, last_char (body +:+ "." +:+ ws) = Some c ∧ c ≠ period.
Proof.
  intros Hws Hall.
  destruct (last_char_is_Some ws Hws) as [c Hc]. exists c.
  rewrite !last_char_app by (done || by apply app_truthy_r).
  split; [done|]. intros ->.
  by apply last_char_all_space in Hc.
Qed.

Lemma drop_period_prefix other full : str_prefix (drop_period other full) full.
Proof.
  unfold drop_period. case_match; [apply drop_last_prefix | apply str_prefix_refl].
Qed.

(** C9: when the first line of the docstring is a text ending in a period
    followed by white space, the summary stored is that line trimmed and
    ends in the period, yet the check reads the last character of the raw
    line, the white space: on any full text ending in a period the check
    drops it, and the full text stored lacks the trailing period of the
    normalized one. *)
Theorem summary_check_reads_raw_line name service_class doc body ws :
  cls_doc service_class = Some doc →
  raw_summary doc = body +:+ "." +:+ ws →
  truthy ws = true →
  all_space ws = true →
  ∃ info, ServiceInfo_init name service_class = Ok info
    ∧ doc_summary (info_docstring info) = strip (body +:+ "." +:+ ws)
    ∧ last_char (doc_summary (info_docstring info)) = Some period
    ∧ (∀ full, ends_with_period full = true →
         drop_period_unless (raw_summary doc) full = Ok (drop_last full))
    ∧ (ends_with_period (normalized_full doc) = true →
         str_prefix (doc_full (info_docstring info))
                    (drop_last (normalized_full doc))).
Proof.
  intros Hdoc Hraw Hws Hall.
  destruct (last_char_period_space body ws Hws Hall) as (c & Hc & Hne).
  assert (Htruthy : truthy doc = true).
  { destruct doc; [|done]. apply (app_truthy_r (body +:+ ".")) in Hws.
    rewrite app_assoc_str, <- Hraw in Hws. done. }
  assert (Hdrop : ∀ full, ends_with_period full = true →
            drop_period (raw_summary doc) full = drop_last full).
  { intros full Hfull. unfold drop_period. rewrite Hfull, Hraw.
    rewrite app_truthy_r by by apply app_truthy_r. simpl.
    rewrite bool_decide_eq_true_2; [done|].
    apply bool_decide_eq_true in Hfull. rewrite Hfull, Hc. congruence. }
  eexists. split; [apply ServiceInfo_init_eq|]. simpl.
  unfold normalize. rewrite Hdoc, Htruthy. simpl. rewrite Hraw.
  split; [done|]. split; [by apply strip_period_space|]. split.
  - intros full Hfull. rewrite drop_period_unless_eq.
    + rewrite <- Hraw. by rewrite Hdrop.
    + apply bool_decide_eq_true in Hfull. apply truthy_true_iff.
      intros ->. done.
  - intros Hfull. eapply str_prefix_trans; [apply rstrip_by_prefix|].
    unfold deduplicated_full.
    assert (Hnf : truthy (normalized_full doc) = true).
    { apply bool_decide_eq_true in Hfull. apply truthy_true_iff.
      intros Hnil. rewrite Hnil in Hfull. done. }
    rewrite Hnf. unfold drop_period at 2.
    case_match.
    + eapply str_prefix_trans; [apply drop_period_prefix | apply str_prefix_refl].
    + by rewrite Hdrop; [apply str_prefix_refl|].
Qed.

End SummaryCheck.

(** ** The graph and the query *)

Section Graph.
Context `{Imports}.

(** C4: after [parse], for all services A and B of the graph, if B is in
    A's invokes then A is in B's invoked_by. It holds from every state of
    the generator, a new one included. *)
Theorem graph_closure self ignore_prefix :
  ∃ self', parse self ignore_prefix = Ok self' ∧
    ∀ A B infoA infoB,
      gen_services self' !! A = Some infoA →
      gen_services self' !! B = Some infoB →
      B ∈ info_invokes infoA →
      A ∈ info_invoked_by infoB.
Proof.
  destruct (parse_ok self ignore_prefix) as (services & _ & Hp).
  eexists. split; [exact Hp|]. simpl.
  intros A B infoA infoB. rewrite !parse_assign_lookup.
  destruct (services !! A) as [a|] eqn:HA; [|done].
  destruct (services !! B) as [b|] eqn:HB; [|done].
  intros [= <-] [= <-] Hin. simpl in *.
  eapply parse_invoked_by_closed; [|exact Hin].
  by apply parse_invokes_lookup.
Qed.

Lemma parse_services_of_filter ignore_prefix store filter :
  parse_services ignore_prefix
    (gen_service_store_services (Generator_init store filter))
    (gen_services (Generator_init store filter))
  = parse_services ignore_prefix
      (List.filter (retained ignore_prefix) store) ∅.
Proof.
  simpl. rewrite parse_services_filter. f_equal.
  induction store as [|item store IH]; [done|]. simpl.
  destruct (retained ignore_prefix item) eqn:E.
  - rewrite filter_cons_True by by apply Is_true_true. by rewrite IH.
  - rewrite filter_cons_False; [done|]. intros Hr%Is_true_true. congruence.
Qed.

Lemma retained_idem ignore_prefix store :
  List.filter (retained ignore_prefix) (List.filter (retained ignore_prefix) store)
  = List.filter (retained ignore_prefix) store.
Proof.
  induction store as [|item store IH]; [done|]. simpl.
  destruct (retained ignore_prefix item) eqn:E; [|done].
  simpl. by rewrite E, IH.
Qed.

(** On a new generator the sources listed in the [invoked_by] of a record
    are names declared by entries that are kept: the accumulators are filled
    from the services of the graph alone. *)
Lemma invoked_by_of_retained store filter ignore_prefix out self' :
  get_info (Generator_init store filter) ignore_prefix = Ok (out, self') →
  ∀ item source, item ∈ out → source ∈ item_invoked_by item →
    ∃ entry, entry ∈ store
             ∧ Text.startswith entry.1 ignore_prefix = false
             ∧ details_name entry.2 = source.
Proof.
  destruct (get_info_eq (Generator_init store filter) ignore_prefix)
    as (self2 & Hp & Hg).
  destruct (parse_ok (Generator_init store filter) ignore_prefix)
    as (services & Hs & Hp').
  rewrite Hp' in Hp. injection Hp as <-. rewrite Hg. simpl in *.
  intros [= <- <-] item source Hitem Hsrc. simpl in *.
  apply visible_items_elem in Hitem as (name & info & _ & _ & Hl & ->).
  simpl in Hsrc. rewrite elem_of_sorted in Hsrc.
  rewrite parse_assign_lookup in Hl.
  destruct (services !! name) as [info0|]; [|done].
  injection Hl as <-. simpl in Hsrc. unfold parse_invoked_by in Hsrc.
  apply append_sources_elem in Hsrc as [Hsrc|Hsrc].
  { rewrite lookup_empty in Hsrc. by apply elem_of_nil in Hsrc. }
  apply (elem_of_keys (parse_invokes services ∅)) in Hsrc.
  assert (Hsome : is_Some (services !! source)).
  { destruct (services !! source) eqn:E; [by eexists|].
    rewrite parse_invokes_lookup_None, lookup_empty in Hsrc by done.
    by destruct Hsrc. }
  apply (parse_services_keys _ _ _ _ source Hs) in Hsome
    as [[? Hempty]|(entry & Hin & Hr & Hn)].
  { by rewrite lookup_empty in Hempty. }
  exists entry. split; [done|]. split; [|done]. by apply negb_true_iff.
Qed.

(** C1, where the code departs from it: [parse] appends to the
    accumulators of [self.invoked_by] left by the call before, so a second
    [get_info] on the same generator lists [foo] twice in the [invoked_by]
    of [bar], and the two calls return different records. *)
Theorem get_info_twice_accumulates :
  edges_of <$> get_info (Generator_init edge_store None) "zato"
  = Ok [("bar", [], ["foo"]); ("foo", ["bar"], [])]
  ∧ edges_of <$> get_info_again (Generator_init edge_store None) "zato"
    = Ok [("bar", [], ["foo"; "foo"]); ("foo", ["bar"], [])]
  ∧ fst <$> get_info (Generator_init edge_store None) "zato"
    ≠ fst <$> get_info_again (Generator_init edge_store None) "zato".
Proof.
  split; [by vm_compute|]. split; [by vm_compute|].
  intros Heq. vm_compute in Heq. discriminate Heq.
Qed.

End Graph.

(** ** The model run on the sample environment *)

(** The end-to-end example of the specification. *)
Example end_to_end :
  edges_of <$> @get_info sample_imports (Generator_init foo_bar_store None) "zz"
  = Ok [("bar", [], ["foo"]); ("foo", ["bar"], [])]
  ∧ docs_of <$> @get_info sample_imports (Generator_init foo_bar_store None) "zz"
    = Ok [("Do bar.", ""); ("Do foo.", "Foo does things.")].
Proof. split; by vm_compute. Qed.

(** Against C2 as stated: a target declared twice stands twice in the
    descriptor's [invokes], and the empty string declared as [invokes]
    gives no element. *)
Lemma invokes_duplicates_kept :
  (∃ l, info_invokes <$> @ServiceInfo_init sample_imports "svc"
                           (no_doc_class (InvList ["dup"; "dup"])) = Ok l
        ∧ l = ["dup"; "dup"] ∧ ¬ NoDup l)
  ∧ info_invokes <$> @ServiceInfo_init sample_imports "svc"
                       (no_doc_class (InvStr "")) = Ok [].
Proof.
  split; [|done]. eexists. split; [done|]. split; [done|].
  intros Hnd. apply NoDup_cons in Hnd as [Hnotin _]. apply Hnotin. by left.
Qed.

(** C6 at [is_active] and [user_id]: as plain names the sample rules type
    them boolean and integer, marked [AsIs] they get the default pair. *)
Lemma AsIs_takes_default_witness :
  @param_list sample_imports sample_dialect
    [PStr "is_active"; PStr "user_id"; PElem AsIs "is_active"; PElem AsIs "user_id"]
  = [ {| pi_name := "is_active"; pi_type := "boolean"; pi_subtype := "boolean" |};
      {| pi_name := "user_id"; pi_type := "integer"; pi_subtype := "int32" |};
      {| pi_name := "is_active"; pi_type := "string"; pi_subtype := "string" |};
      {| pi_name := "user_id"; pi_type := "string"; pi_subtype := "string" |} ]
  ∧ @type_info sample_imports sample_dialect (PElem AsIs "is_active") "is_active"
    = ("string", "string")
  ∧ @param_list sample_imports sample_dialect
      [PStr "is_active"; PStr "user_id"; PElem AsIs "is_active";
       PElem AsIs "user_id"] !! 2
    = Some {| pi_name := "is_active"; pi_type := "string"; pi_subtype := "string" |}.
Proof.
  split; [reflexivity|].
  exact (@AsIs_takes_default sample_imports sample_dialect
           [PStr "is_active"; PStr "user_id"; PElem AsIs "is_active";
            PElem AsIs "user_id"] 2 "is_active" eq_refl).
Defined.

(** C9 at the docstring [Do foo. ]: the summary is [Do foo.], the full
    text loses its period. *)
Lemma summary_check_reads_raw_line_witness :
  (info_docstring <$> @ServiceInfo_init sample_imports "svc"
     {| cls_invokes := InvAbsent; cls_SimpleIO := None;
        cls_doc := Some "Do foo. " |})
  = Ok {| doc_summary := "Do foo."; doc_description := ""; doc_full := "Do foo" |}
  ∧ @normalized_full sample_imports "Do foo. " = "Do foo."
  ∧ ∃ info, @ServiceInfo_init sample_imports "svc"
              {| cls_invokes := InvAbsent; cls_SimpleIO := None;
                 cls_doc := Some "Do foo. " |} = Ok info
    ∧ doc_summary (info_docstring info) = Text.strip ("Do foo" +:+ "." +:+ " ")
    ∧ Text.last_char (doc_summary (info_docstring info)) = Some Text.period
    ∧ (∀ full, ends_with_period full = true →
         @drop_period_unless (@raw_summary "Do foo. ") full
         = Ok (Text.drop_last full))
    ∧ (ends_with_period (@normalized_full sample_imports "Do foo. ") = true →
         str_prefix (doc_full (info_docstring info))
                    (Text.drop_last (@normalized_full sample_imports "Do foo. "))).
Proof.
  split; [reflexivity|]. split; [reflexivity|].
  exact (@summary_check_reads_raw_line sample_imports "svc"
           {| cls_invokes := InvAbsent; cls_SimpleIO := None;
              cls_doc := Some "Do foo. " |}
           "Do foo. " "Do foo" " " eq_refl eq_refl eq_refl eq_refl).
Defined.

(** * Further properties of the module *)

(** ** Notions *)

(** The first character of a text. *)
Definition head_char (s : string) : option ascii :=
  match s with
  | EmptyString => None
  | String c _ => Some c
  end.

(** Every character of the text passes the test. *)
Fixpoint str_forallb (p : ascii → bool) (s : string) : bool :=
  match s with
  | EmptyString => true
  | String c s' => p c && str_forallb p s'
  end.

(** The name a declared parameter goes by:
    [param if isinstance(param, basestring) else param.name]. *)
Definition declared_name (param : Param) : string :=
  match param with PStr s => s | PElem _ name => name end.

(** A record with its [invoked_by] left out. *)
Definition without_invoked_by (item : Item) : Item :=
  {| item_name := item_name item;
     item_docs := item_docs item;
     item_invokes := item_invokes item;
     item_invoked_by := [];
     item_simple_io := item_simple_io item |}.

Section Filed.
Context `{Imports}.

(** The object [ServiceInfo(name, service_class)] evaluates to. *)
Definition ServiceInfo_value (name : string) (service_class : ServiceClass)
  : ServiceInfo :=
  set_docstring (normalize (cls_doc service_class))
    (set_config (ServiceInfo_attrs name service_class)).

(** One round of the first loop of [parse] on the dict of services. *)
Definition file_entry (ignore_prefix : string)
    (services : gmap string ServiceInfo) (entry : string * Details)
  : gmap string ServiceInfo :=
  if retained ignore_prefix entry
  then <[details_name entry.2 :=
           ServiceInfo_value (details_name entry.2)
                             (details_service_class entry.2)]> services
  else services.

(** The names declared by the entries that are kept, in store order. *)
Definition retained_names (ignore_prefix : string)
    (store : list (string * Details)) : list string :=
  (λ entry, details_name entry.2)
    <$> List.filter (retained ignore_prefix) store.

End Filed.

(** ** The first loop as a fold *)

Section FiledLemmas.
Context `{Imports}.

Lemma ServiceInfo_value_name name service_class :
  info_name (ServiceInfo_value name service_class) = name.
Proof. unfold ServiceInfo_value. simpl. apply set_config_name. Qed.

Lemma parse_services_fold ignore_prefix items services :
  parse_services ignore_prefix items services
  = Ok (foldl (file_entry ignore_prefix) services items).
Proof.
  revert services. induction items as [|[impl_name details] items IH];
    intros services; [done|].
  simpl. unfold file_entry at 2. unfold retained. simpl.
  destruct (negb (Text.startswith impl_name ignore_prefix)); [|apply IH].
  rewrite ServiceInfo_init_eq, bind_Ok.
  fold (ServiceInfo_value (details_name details) (details_service_class details)).
  rewrite ServiceInfo_value_name. apply IH.
Qed.

(** A name is filed by the entries of the store, or left as it was. *)
Lemma filed_lookup ignore_prefix items services name :
  foldl (file_entry ignore_prefix) services items !! name
  = match foldl (file_entry ignore_prefix) ∅ items !! name with
    | Some info => Some info
    | None => services !! name
    end.
Proof.
  revert services. induction items as [|entry items IH]; intros services.
  { simpl. by rewrite lookup_empty. }
  simpl. rewrite (IH (file_entry ignore_prefix services entry)).
  rewrite (IH (file_entry ignore_prefix ∅ entry)).
  destruct (foldl (file_entry ignore_prefix) ∅ items !! name); [done|].
  unfold file_entry. destruct (retained ignore_prefix entry).
  - rewrite !lookup_insert. case_decide; [done|]. by rewrite lookup_empty.
  - by rewrite lookup_empty.
Qed.

Lemma filed_is_Some ignore_prefix items name :
  is_Some (foldl (file_entry ignore_prefix) ∅ items !! name)
  ↔ name ∈ retained_names ignore_prefix items.
Proof.
  pose proof (parse_services_keys ignore_prefix items ∅ _ name
                (parse_services_fold ignore_prefix items ∅)) as Hk.
  rewrite Hk, lookup_empty. unfold retained_names.
  rewrite list_elem_of_fmap. split.
  - intros [[? [=]]|(entry & Hin & Hr & Hn)]. exists entry. split; [done|].
    apply list_elem_of_In, filter_In. split; [by apply list_elem_of_In|done].
  - intros (entry & -> & Hin). right. exists entry.
    apply list_elem_of_In, filter_In in Hin as [Hin Hr].
    split; [by apply list_elem_of_In|done].
Qed.

(** [parse] on a new generator, in terms of the fold. *)
Lemma parse_new store filter ignore_prefix :
  parse (Generator_init store filter) ignore_prefix
  = Ok (let services := foldl (file_entry ignore_prefix) ∅ store in
        let invokes := parse_invokes services ∅ in
        let invoked_by := parse_invoked_by invokes ∅ in
        {| gen_service_store_services := store;
           gen_filter := filter;
           gen_services := parse_assign services invoked_by;
           gen_invokes := invokes;
           gen_invoked_by := invoked_by |}).
Proof.
  unfold parse. simpl. by rewrite parse_services_fold, bind_Ok.
Qed.

Lemma filed_keyed ignore_prefix items :
  keyed_by_name (foldl (file_entry ignore_prefix) ∅ items).
Proof.
  eapply parse_services_keyed;
    [apply parse_services_fold | apply keyed_by_name_empty].
Qed.

Lemma keys_NoDup {A} (d : gmap string A) : NoDup (keys d).
Proof. apply NoDup_fst_map_to_list. Qed.

Lemma sorted_NoDup l : NoDup l → NoDup (sorted l).
Proof. intros Hl. unfold sorted. by rewrite merge_sort_Permutation. Qed.

(** Sorting reads the names only as a collection. *)
Lemma sorted_perm l k : l ≡ₚ k → sorted l = sorted k.
Proof.
  intros Hp. apply (Sorted_unique String.le); [apply sorted_Sorted..|].
  unfold sorted. by rewrite !merge_sort_Permutation.
Qed.

Lemma keys_perm {A B} (d : gmap string A) (d' : gmap string B) :
  (∀ k, is_Some (d !! k) ↔ is_Some (d' !! k)) → keys d ≡ₚ keys d'.
Proof.
  intros Hd. apply NoDup_Permutation; [apply keys_NoDup..|].
  intros k. by rewrite !elem_of_keys.
Qed.

Lemma parse_assign_is_Some services invoked_by name :
  is_Some (parse_assign services invoked_by !! name)
  ↔ is_Some (services !! name).
Proof. by rewrite parse_assign_lookup, fmap_is_Some. Qed.

(** The names of the records: the names given, less those filtered out. *)
Lemma visible_items_names_filter filter services names :
  keyed_by_name services →
  (∀ name, name ∈ names → is_Some (services !! name)) →
  item_name <$> visible_items filter services names
  = List.filter (λ name, negb (filtered_out filter name)) names.
Proof.
  intros Hk Hin. unfold visible_items.
  induction names as [|n names IH]; [done|]. rewrite omap_cons_eq. simpl.
  assert (Hrest : ∀ m, m ∈ names → is_Some (services !! m)).
  { intros m Hm. apply Hin. by right. }
  destruct (filtered_out filter n); simpl; [by apply IH|].
  destruct (Hin n) as [info Hinfo]; [by left|]. rewrite Hinfo. simpl.
  rewrite (Hk _ _ Hinfo). f_equal. by apply IH.
Qed.

End FiledLemmas.

(** ** The records and the filter *)

Section Records.
Context `{Imports}.

Lemma StronglySorted_list_filter (f : string → bool) l :
  StronglySorted String.le l → StronglySorted String.le (List.filter f l).
Proof.
  induction 1 as [|x l Hl IH Hx]; simpl; [constructor|].
  destruct (f x); [|done]. constructor; [done|].
  apply Forall_forall. intros y Hy%list_elem_of_In%filter_In.
  destruct Hy as [Hy _]. rewrite Forall_forall in Hx.
  by apply Hx, list_elem_of_In.
Qed.

(** With a filter that is set, the loop keeps the one name equal to it. *)
Lemma visible_items_one f services names :
  Text.truthy f = true → NoDup names →
  (∀ name, name ∈ names → is_Some (services !! name)) →
  visible_items (Some f) services names
  = if decide (f ∈ names) then
      match services !! f with Some info => [item_of info] | None => [] end
    else [].
Proof.
  intros Hf Hnd Hin. unfold visible_items.
  induction names as [|n names IH]; [done|].
  apply NoDup_cons in Hnd as [Hn Hnd].
  assert (Hrest : ∀ m, m ∈ names → is_Some (services !! m)).
  { intros m Hm. apply Hin. by right. }
  rewrite omap_cons_eq, (IH Hnd Hrest). unfold filtered_out.
  rewrite Hf. cbn [andb]. destruct (decide (n = f)) as [->|Hne].
  - rewrite bool_decide_eq_false_2 by (intros Hc; by apply Hc).
    destruct (Hin f) as [info Hinfo]; [by left|]. rewrite Hinfo.
    rewrite (decide_True (P := f ∈ f :: names)) by by left.
    by rewrite (decide_False (P := f ∈ names)).
  - rewrite bool_decide_eq_true_2 by done.
    destruct (decide (f ∈ names)) as [Hfn|Hfn].
    + by rewrite (decide_True (P := f ∈ n :: names)) by by right.
    + rewrite (decide_False (P := f ∈ n :: names)); [done|].
      intros [?|?]%elem_of_cons; congruence.
Qed.

(** With a name as filter, [get_info] returns the record of the service
    of that name when the graph has one, and no record otherwise; the
    graph has one when an entry that is kept declares the name. *)
Theorem filter_exact store f ignore_prefix :
  Text.truthy f = true →
  ∃ out self',
    get_info (Generator_init store (Some f)) ignore_prefix = Ok (out, self')
    ∧ out = match gen_services self' !! f with
            | Some info => [item_of info]
            | None => []
            end
    ∧ (is_Some (gen_services self' !! f)
       ↔ f ∈ retained_names ignore_prefix store).
Proof.
  intros Hf.
  destruct (get_info_eq (Generator_init store (Some f)) ignore_prefix)
    as (self' & Hp & Hg).
  rewrite parse_new in Hp. injection Hp as <-. cbv zeta in Hg. simpl in Hg.
  do 2 eexists. split; [exact Hg|]. simpl. split.
  - rewrite visible_items_one; [|done|apply sorted_NoDup, keys_NoDup|].
    + case_decide as Hin; [done|].
      rewrite elem_of_sorted, elem_of_keys in Hin.
      destruct (parse_assign _ _ !! f) eqn:E; [|done].
      exfalso. apply Hin. by eexists.
    + intros name. by rewrite elem_of_sorted, elem_of_keys.
  - by rewrite parse_assign_is_Some, filed_is_Some.
Qed.

(** Whatever the filter, the records come sorted by name and no two of
    them share a name. *)
Theorem records_sorted_distinct store filter ignore_prefix :
  ∃ out self',
    get_info (Generator_init store filter) ignore_prefix = Ok (out, self')
    ∧ StronglySorted String.le (item_name <$> out)
    ∧ NoDup (item_name <$> out).
Proof.
  destruct (get_info_eq (Generator_init store filter) ignore_prefix)
    as (self' & Hp & Hg).
  rewrite parse_new in Hp. injection Hp as <-. cbv zeta in Hg. simpl in Hg.
  do 2 eexists. split; [exact Hg|]. simpl.
  rewrite visible_items_names_filter.
  - split.
    + apply StronglySorted_list_filter, Sorted_StronglySorted; [apply _|].
      apply sorted_Sorted.
    + apply NoDup_ListNoDup, List.NoDup_filter, NoDup_ListNoDup.
      apply sorted_NoDup, keys_NoDup.
  - apply parse_assign_keyed, filed_keyed.
  - intros name. by rewrite elem_of_sorted, elem_of_keys.
Qed.

Lemma startswith_empty s : Text.startswith s "" = true.
Proof. by destruct s. Qed.

(** The empty prefix starts every identifier: with it [get_info] keeps no
    entry, returns no record and leaves a new generator as it was. *)
Theorem empty_prefix_ignores_all store filter :
  get_info (Generator_init store filter) ""
  = Ok ([], Generator_init store filter).
Proof.
  assert (Hfold : ∀ services,
    foldl (file_entry "") services store = services).
  { induction store as [|entry store IH]; intros services; [done|].
    simpl. unfold file_entry at 2. unfold retained.
    rewrite startswith_empty. simpl. apply IH. }
  unfold get_info. rewrite parse_new, bind_Ok. cbv zeta. rewrite Hfold.
  unfold parse_invokes, parse_invoked_by, parse_assign.
  rewrite map_to_list_empty. simpl. rewrite map_to_list_empty. simpl.
  rewrite map_imap_empty. simpl. unfold keys. rewrite map_to_list_empty.
  done.
Qed.

Lemma parse_invokes_is_Some services invokes name :
  is_Some (invokes !! name) → is_Some (parse_invokes services invokes !! name).
Proof.
  intros Hi. destruct (services !! name) as [info|] eqn:E.
  - rewrite (parse_invokes_lookup _ _ _ _ E). by eexists.
  - by rewrite parse_invokes_lookup_None.
Qed.

End Records.

(** ** Edges of the graph *)

Section Edges.
Context `{Imports}.

(** A source held by an accumulator was there before, or was appended for
    one of the targets. *)
Lemma append_targets_from targets d source k x :
  x ∈ default []
        (foldl (λ d target, setdefault_append d target source) d targets !! k) →
  x ∈ default [] (d !! k) ∨ (x = source ∧ k ∈ targets).
Proof.
  revert d. induction targets as [|t targets IH]; intros d Hx; simpl in Hx.
  { by left. }
  apply IH in Hx as [Hx|[-> Hk]]; [|right; split; [done | by right]].
  unfold setdefault_append in Hx. rewrite lookup_insert in Hx.
  case_decide as Hk; [|by left]. subst k. simpl in Hx.
  apply elem_of_app in Hx as [Hx|Hx]; [by left|].
  apply list_elem_of_singleton in Hx. right. split; [done | by left].
Qed.

Lemma append_sources_from (l : list (string * list string)) d k x :
  x ∈ default []
        (foldl (λ d '(source, targets),
                  foldl (λ d target, setdefault_append d target source)
                        d targets) d l !! k) →
  x ∈ default [] (d !! k) ∨ ∃ targets, (x, targets) ∈ l ∧ k ∈ targets.
Proof.
  revert d. induction l as [|[s ts] l IH]; intros d Hx; simpl in Hx.
  { by left. }
  apply IH in Hx as [Hx|(targets & Hin & Hk)].
  - apply append_targets_from in Hx as [Hx|[-> Hk]]; [by left|].
    right. exists ts. split; [by left | done].
  - right. exists targets. split; [by right | done].
Qed.

(** On accumulators that start empty, the sources of a target are the
    services whose [invokes] names it. *)
Lemma parse_invoked_by_iff invokes source target :
  source ∈ default [] (parse_invoked_by invokes ∅ !! target)
  ↔ ∃ targets, invokes !! source = Some targets ∧ target ∈ targets.
Proof.
  split.
  - intros Hs. unfold parse_invoked_by in Hs.
    apply append_sources_from in Hs as [Hs|(targets & Hin & Hk)].
    + rewrite lookup_empty in Hs. by apply elem_of_nil in Hs.
    + exists targets. split; [by apply elem_of_map_to_list | done].
  - intros (targets & Hl & Hk). by eapply parse_invoked_by_closed.
Qed.

(** In the records of a new generator the two directions of an edge
    agree: for records [a] and [b], the name of [b] is in the [invokes] of
    [a] exactly when the name of [a] is in the [invoked_by] of [b]. *)
Theorem edges_agree store filter ignore_prefix :
  ∃ out self',
    get_info (Generator_init store filter) ignore_prefix = Ok (out, self')
    ∧ ∀ a b, a ∈ out → b ∈ out →
        item_name b ∈ item_invokes a ↔ item_name a ∈ item_invoked_by b.
Proof.
  destruct (get_info_eq (Generator_init store filter) ignore_prefix)
    as (self' & Hp & Hg).
  rewrite parse_new in Hp. injection Hp as <-. cbv zeta in Hg. simpl in Hg.
  do 2 eexists. split; [exact Hg|].
  set (services := foldl (file_entry ignore_prefix) ∅ store).
  intros a b Ha Hb.
  apply visible_items_elem in Ha as (na & ia & _ & _ & Hla & ->).
  apply visible_items_elem in Hb as (nb & ib & _ & _ & Hlb & ->).
  pose proof (parse_assign_keyed _ (parse_invoked_by (parse_invokes services ∅) ∅)
                (filed_keyed ignore_prefix store)) as Hkeyed.
  cbn [item_of item_name item_invokes item_invoked_by].
  rewrite (Hkeyed _ _ Hla), (Hkeyed _ _ Hlb).
  rewrite parse_assign_lookup in Hla, Hlb. fold services in Hla, Hlb.
  destruct (services !! na) as [a0|] eqn:Ea; [|done].
  destruct (services !! nb) as [b0|] eqn:Eb; [|done].
  injection Hla as <-. injection Hlb as <-. simpl.
  rewrite !elem_of_sorted, parse_invoked_by_iff.
  rewrite (parse_invokes_lookup _ _ _ _ Ea). split.
  - intros Hin. by eexists.
  - by intros (targets & [= <-] & Hin).
Qed.

(** When several entries that are kept declare one name, the last of them
    in the order of the store is the one the graph holds: its record
    carries the invokes and the docstring of that entry's class. *)
Theorem last_entry_wins before entry after ignore_prefix :
  retained ignore_prefix entry = true →
  details_name entry.2 ∉ retained_names ignore_prefix after →
  ∃ out self' item,
    get_info (Generator_init (before ++ entry :: after) None) ignore_prefix
    = Ok (out, self')
    ∧ item ∈ out
    ∧ item_name item = details_name entry.2
    ∧ item_invokes item
      = sorted (declared_invokes (cls_invokes (details_service_class entry.2)))
    ∧ docs_summary (item_docs item)
      = doc_summary (normalize (cls_doc (details_service_class entry.2)))
    ∧ docs_description (item_docs item)
      = doc_description (normalize (cls_doc (details_service_class entry.2)))
    ∧ docs_full (item_docs item)
      = doc_full (normalize (cls_doc (details_service_class entry.2))).
Proof.
  intros Hr Hafter.
  destruct (get_info_eq (Generator_init (before ++ entry :: after) None)
              ignore_prefix) as (self' & Hp & Hg).
  rewrite parse_new in Hp. injection Hp as <-. cbv zeta in Hg. simpl in Hg.
  set (services := foldl (file_entry ignore_prefix) ∅ (before ++ entry :: after))
    in *.
  set (value := ServiceInfo_value (details_name entry.2)
                                  (details_service_class entry.2)).
  assert (Hl : services !! details_name entry.2 = Some value).
  { unfold services. rewrite foldl_app. simpl. rewrite filed_lookup.
    destruct (foldl (file_entry ignore_prefix) ∅ after !! details_name entry.2)
      eqn:E.
    { exfalso. apply Hafter, filed_is_Some. by eexists. }
    unfold file_entry at 1. rewrite Hr. apply lookup_insert_eq. }
  set (invoked_by := parse_invoked_by (parse_invokes services ∅) ∅) in *.
  do 2 eexists.
  exists (item_of (set_invoked_by (default [] (invoked_by !! details_name entry.2))
                                  value)).
  split; [exact Hg|]. split.
  - unfold visible_items. apply list_elem_of_omap.
    exists (details_name entry.2). split.
    + rewrite elem_of_sorted, elem_of_keys, parse_assign_is_Some. by eexists.
    + simpl. by rewrite parse_assign_lookup, Hl.
  - subst value. unfold ServiceInfo_value. simpl.
    rewrite set_config_name, set_config_invokes. done.
Qed.

End Edges.

(** ** The order of the store *)

Section StoreOrder.
Context `{Imports}.

Lemma retained_names_cons ignore_prefix entry store :
  retained_names ignore_prefix (entry :: store)
  = if retained ignore_prefix entry
    then details_name entry.2 :: retained_names ignore_prefix store
    else retained_names ignore_prefix store.
Proof. unfold retained_names. simpl. by destruct (retained _ _). Qed.

Lemma retained_names_perm ignore_prefix store store' :
  store ≡ₚ store' →
  retained_names ignore_prefix store ≡ₚ retained_names ignore_prefix store'.
Proof.
  induction 1 as [|x l l' _ IH|x y l|l l' l'' _ IH1 _ IH2].
  - done.
  - rewrite !retained_names_cons. destruct (retained _ _); by rewrite IH.
  - rewrite !retained_names_cons.
    destruct (retained _ x), (retained _ y); try done. apply perm_swap.
  - by etrans.
Qed.

Lemma filed_perm ignore_prefix store store' :
  store ≡ₚ store' →
  NoDup (retained_names ignore_prefix store) →
  ∀ services,
    foldl (file_entry ignore_prefix) services store
    = foldl (file_entry ignore_prefix) services store'.
Proof.
  induction 1 as [|x l l' Hp IH|x y l|l l' l'' Hp1 IH1 Hp2 IH2];
    intros Hnd services.
  - done.
  - simpl. apply IH. rewrite retained_names_cons in Hnd.
    destruct (retained _ _); [by apply NoDup_cons in Hnd as [_ ?] | done].
  - simpl. f_equal. rewrite !retained_names_cons in Hnd. unfold file_entry.
    destruct (retained ignore_prefix x), (retained ignore_prefix y); try done.
    apply insert_insert_ne. apply NoDup_cons in Hnd as [Hne _].
    intros Heq. apply Hne. rewrite Heq. by left.
  - rewrite IH1 by done. apply IH2.
    by rewrite <- (retained_names_perm ignore_prefix l l').
Qed.

(** When the entries that are kept declare distinct names, the records do
    not depend on the order in which the store yields its entries. *)
Theorem store_order_irrelevant store store' filter ignore_prefix :
  store ≡ₚ store' →
  NoDup (retained_names ignore_prefix store) →
  fst <$> get_info (Generator_init store filter) ignore_prefix
  = fst <$> get_info (Generator_init store' filter) ignore_prefix.
Proof.
  intros Hp Hnd.
  destruct (get_info_eq (Generator_init store filter) ignore_prefix)
    as (self1 & Hp1 & ->).
  destruct (get_info_eq (Generator_init store' filter) ignore_prefix)
    as (self2 & Hp2 & ->).
  rewrite parse_new in Hp1, Hp2. injection Hp1 as <-. injection Hp2 as <-.
  cbv zeta. simpl. by rewrite (filed_perm _ _ _ Hp Hnd).
Qed.

End StoreOrder.

(** ** A second call on the same generator *)

Section SecondCall.
Context `{Imports}.

(** The third loop appends to the accumulators it is given what it would
    collect from empty ones. *)
Lemma append_targets_app targets d source k :
  default []
    (foldl (λ d target, setdefault_append d target source) d targets !! k)
  = default [] (d !! k)
    ++ default []
         (foldl (λ d target, setdefault_append d target source) ∅ targets !! k).
Proof.
  revert d. induction targets as [|t targets IH]; intros d; simpl.
  { by rewrite lookup_empty, app_nil_r. }
  rewrite (IH (setdefault_append d t source)).
  rewrite (IH (setdefault_append ∅ t source)), app_assoc. f_equal.
  unfold setdefault_append. rewrite !lookup_insert.
  case_decide as Hk.
  - subst k. simpl. by rewrite lookup_empty.
  - by rewrite lookup_empty, app_nil_r.
Qed.

Lemma append_sources_app (l : list (string * list string)) d k :
  default []
    (foldl (λ d '(source, targets),
              foldl (λ d target, setdefault_append d target source) d targets)
           d l !! k)
  = default [] (d !! k)
    ++ default []
         (foldl (λ d '(source, targets),
                   foldl (λ d target, setdefault_append d target source)
                         d targets) ∅ l !! k).
Proof.
  revert d. induction l as [|[s ts] l IH]; intros d; simpl.
  { by rewrite lookup_empty, app_nil_r. }
  rewrite (IH (foldl _ d ts)). rewrite (IH (foldl _ ∅ ts)), app_assoc.
  f_equal. apply append_targets_app.
Qed.

Lemma parse_invoked_by_app invokes invoked_by k :
  default [] (parse_invoked_by invokes invoked_by !! k)
  = default [] (invoked_by !! k)
    ++ default [] (parse_invoked_by invokes ∅ !! k).
Proof. apply append_sources_app. Qed.

(** Filing the store again over the services it filed changes nothing. *)
Lemma filed_again ignore_prefix store invoked_by :
  foldl (file_entry ignore_prefix)
        (parse_assign (foldl (file_entry ignore_prefix) ∅ store) invoked_by)
        store
  = foldl (file_entry ignore_prefix) ∅ store.
Proof.
  apply map_eq. intros name. rewrite filed_lookup.
  destruct (foldl (file_entry ignore_prefix) ∅ store !! name) eqn:E; [done|].
  by rewrite parse_assign_lookup, E.
Qed.

Lemma parse_invokes_again services :
  parse_invokes services (parse_invokes services ∅) = parse_invokes services ∅.
Proof.
  apply map_eq. intros name. destruct (services !! name) as [info|] eqn:E.
  - by rewrite !(parse_invokes_lookup _ _ _ _ E).
  - by rewrite (parse_invokes_lookup_None _ (parse_invokes services ∅)).
Qed.

(** The records of two generators that differ in their accumulators
    only, the second holding every source twice. *)
Lemma visible_items_doubled filter services invoked_by invoked_by' names :
  (∀ k, default [] (invoked_by' !! k)
        = default [] (invoked_by !! k) ++ default [] (invoked_by !! k)) →
  Forall2 (λ item1 item2,
             without_invoked_by item2 = without_invoked_by item1
             ∧ item_invoked_by item2
               ≡ₚ item_invoked_by item1 ++ item_invoked_by item1)
    (visible_items filter (parse_assign services invoked_by) names)
    (visible_items filter (parse_assign services invoked_by') names).
Proof.
  intros Hd. unfold visible_items.
  induction names as [|n names IH]; [constructor|].
  rewrite !omap_cons_eq. destruct (filtered_out filter n); [done|].
  rewrite !parse_assign_lookup.
  destruct (services !! n) as [info|]; [|done]. simpl.
  constructor; [|done]. split; [done|].
  cbn [item_invoked_by item_of info_invoked_by set_invoked_by].
  unfold sorted. rewrite !merge_sort_Permutation. by rewrite Hd.
Qed.

(** The generator [parse] leaves behind, given the accumulators it ends
    with: the services filed from the store, their invokes, and every
    service assigned its accumulator. *)
Definition graph_with (ignore_prefix : string) (store : list (string * Details))
    (filter : option string) (invoked_by : gmap string (list string))
  : Generator :=
  {| gen_service_store_services := store;
     gen_filter := filter;
     gen_services :=
       parse_assign (foldl (file_entry ignore_prefix) ∅ store) invoked_by;
     gen_invokes := parse_invokes (foldl (file_entry ignore_prefix) ∅ store) ∅;
     gen_invoked_by := invoked_by |}.

(** The accumulators after [parse] on a new generator. *)
Definition first_invoked_by (ignore_prefix : string)
    (store : list (string * Details)) : gmap string (list string) :=
  parse_invoked_by
    (parse_invokes (foldl (file_entry ignore_prefix) ∅ store) ∅) ∅.

Lemma parse_first store filter ignore_prefix :
  parse (Generator_init store filter) ignore_prefix
  = Ok (graph_with ignore_prefix store filter
          (first_invoked_by ignore_prefix store)).
Proof. apply parse_new. Qed.

(** [parse] on the generator an earlier [parse] left behind. *)
Lemma parse_again store filter ignore_prefix invoked_by :
  parse (graph_with ignore_prefix store filter invoked_by) ignore_prefix
  = Ok (graph_with ignore_prefix store filter
          (parse_invoked_by
             (parse_invokes (foldl (file_entry ignore_prefix) ∅ store) ∅)
             invoked_by)).
Proof.
  unfold parse, graph_with. simpl.
  by rewrite parse_services_fold, bind_Ok, filed_again, parse_invokes_again.
Qed.

(** What a second [get_info] on the same generator returns: record for
    record the first answer, with the same name, docs, invokes and schema,
    and an [invoked_by] that lists every source of the first answer
    twice. *)
Theorem second_call_doubles store filter ignore_prefix :
  ∃ out1 self1 out2 self2,
    get_info (Generator_init store filter) ignore_prefix = Ok (out1, self1)
    ∧ get_info self1 ignore_prefix = Ok (out2, self2)
    ∧ Forall2 (λ item1 item2,
                 without_invoked_by item2 = without_invoked_by item1
                 ∧ item_invoked_by item2
                   ≡ₚ item_invoked_by item1 ++ item_invoked_by item1)
              out1 out2.
Proof.
  destruct (get_info_eq (Generator_init store filter) ignore_prefix)
    as (self1 & Hp1 & Hg1).
  rewrite parse_first in Hp1. injection Hp1 as <-.
  destruct (get_info_eq
              (graph_with ignore_prefix store filter
                 (first_invoked_by ignore_prefix store)) ignore_prefix)
    as (self2 & Hp2 & Hg2).
  rewrite parse_again in Hp2. injection Hp2 as <-.
  do 4 eexists. split; [exact Hg1|]. split; [exact Hg2|]. simpl.
  rewrite (sorted_perm
             (keys (parse_assign (foldl (file_entry ignore_prefix) ∅ store)
                      (parse_invoked_by
                         (parse_invokes
                            (foldl (file_entry ignore_prefix) ∅ store) ∅)
                         (first_invoked_by ignore_prefix store))))
             (keys (parse_assign (foldl (file_entry ignore_prefix) ∅ store)
                      (first_invoked_by ignore_prefix store)))).
  - apply visible_items_doubled. intros k.
    by rewrite parse_invoked_by_app.
  - apply keys_perm. intros k. by rewrite !parse_assign_is_Some.
Qed.

End SecondCall.

(** ** The docstring stored *)

Section Stored.
Context `{Imports}.
Import Text.

Lemma rstrip_by_last p s c :
  last_char (rstrip_by p s) = Some c → p c = false.
Proof.
  induction s as [|a s IH]; [done|]. simpl.
  destruct (truthy (rstrip_by p s)) eqn:Hr; simpl.
  - destruct (rstrip_by p s) as [|b r]; [done|]. exact IH.
  - destruct (p a) eqn:Ha; [done|].
    destruct (rstrip_by p s); [|done]. simpl. congruence.
Qed.

Lemma lstrip_by_head p s c :
  head_char (lstrip_by p s) = Some c → p c = false.
Proof.
  induction s as [|a s IH]; [done|]. simpl.
  destruct (p a) eqn:Ha; [exact IH|]. simpl. congruence.
Qed.

(** Trimming on the left keeps the last character. *)
Lemma lstrip_by_last p s c :
  last_char (lstrip_by p s) = Some c → last_char s = Some c.
Proof.
  induction s as [|a s IH]; [done|]. simpl lstrip_by.
  destruct (p a); [|done]. intros Hc. specialize (IH Hc).
  simpl. destruct s; [done | exact IH].
Qed.

Lemma rev_app_forallb p s t :
  str_forallb p (String.rev_app s t) = str_forallb p s && str_forallb p t.
Proof.
  revert t. induction s as [|a s IH]; intros t; [done|]. simpl.
  rewrite IH. simpl. by destruct (p a), (str_forallb p s).
Qed.

Lemma rev_forallb p s : str_forallb p (String.rev s) = str_forallb p s.
Proof. unfold String.rev. rewrite rev_app_forallb. simpl. apply andb_true_r. Qed.

(** No line of [splitlines] holds a line boundary. *)
Lemma splitlines_go_no_break after_cr cur s :
  str_forallb (λ c, negb (is_linebreak c)) cur = true →
  Forall (λ line, str_forallb (λ c, negb (is_linebreak c)) line = true)
         (splitlines_go after_cr cur s).
Proof.
  revert after_cr cur. induction s as [|c s IH]; intros after_cr cur Hcur; simpl.
  { destruct (truthy cur); [|constructor].
    constructor; [by rewrite rev_forallb | constructor]. }
  assert (Hrev : str_forallb (λ c, negb (is_linebreak c)) (String.rev cur) = true)
    by by rewrite rev_forallb.
  repeat case_bool_decide; repeat case_match;
    try (by apply IH); try (constructor; [done | by apply IH]).
  apply IH. simpl. rewrite Hcur. by destruct (is_linebreak c).
Qed.

Lemma lstrip_by_forallb p q s :
  str_forallb q s = true → str_forallb q (lstrip_by p s) = true.
Proof.
  induction s as [|a s IH]; [done|]. simpl.
  intros [Ha Hs]%andb_prop. destruct (p a); [by apply IH|].
  simpl. by rewrite Ha, Hs.
Qed.

Lemma rstrip_by_forallb p q s :
  str_forallb q s = true → str_forallb q (rstrip_by p s) = true.
Proof.
  induction s as [|a s IH]; [done|]. simpl.
  intros [Ha Hs]%andb_prop. destruct (negb _ && p a); [done|].
  simpl. by rewrite Ha, IH.
Qed.

Lemma raw_summary_no_break doc :
  str_forallb (λ c, negb (is_linebreak c)) (raw_summary doc) = true.
Proof.
  unfold raw_summary.
  pose proof (splitlines_go_no_break false "" doc eq_refl) as Hall.
  fold (splitlines doc) in Hall.
  destruct (splitlines doc) as [|l ls]; [done|].
  by apply Forall_cons in Hall as [? _].
Qed.

(** The summary stored is one line without white space at either end,
    and the full text stored does not end in white space. *)
Theorem summary_and_full_trimmed name service_class :
  ∃ info, ServiceInfo_init name service_class = Ok info
    ∧ str_forallb (λ c, negb (is_linebreak c))
                  (doc_summary (info_docstring info)) = true
    ∧ (∀ c, head_char (doc_summary (info_docstring info)) = Some c →
            is_space c = false)
    ∧ (∀ c, last_char (doc_summary (info_docstring info)) = Some c →
            is_space c = false)
    ∧ (∀ c, last_char (doc_full (info_docstring info)) = Some c →
            is_space c = false).
Proof.
  eexists. split; [apply ServiceInfo_init_eq|]. simpl. unfold normalize.
  destruct (cls_doc service_class) as [doc|]; [|by repeat split].
  destruct (truthy doc); [|by repeat split]. simpl. repeat split.
  - apply lstrip_by_forallb, rstrip_by_forallb, raw_summary_no_break.
  - intros c. apply lstrip_by_head.
  - intros c Hc%lstrip_by_last. by apply rstrip_by_last in Hc.
  - intros c. apply rstrip_by_last.
Qed.

Lemma drop_period_cases other full :
  drop_period other full = full
  ∨ (ends_with_period full = true ∧ drop_period other full = drop_last full).
Proof.
  unfold drop_period. destruct (_ && _ && _) eqn:E; [|by left].
  apply andb_prop in E as [[_ Hp]%andb_prop _]. by right.
Qed.

(** The period checks take nothing but final periods, two at most: the
    full text stored is the formatted text right-trimmed, or that text
    less one final period, or less two, right-trimmed. *)
Theorem full_less_two_periods_at_most name service_class :
  ∃ info, ServiceInfo_init name service_class = Ok info
    ∧ let full := normalized_full_of (cls_doc service_class) in
      doc_full (info_docstring info) = rstrip full
      ∨ (ends_with_period full = true
         ∧ doc_full (info_docstring info) = rstrip (drop_last full))
      ∨ (ends_with_period full = true
         ∧ ends_with_period (drop_last full) = true
         ∧ doc_full (info_docstring info) = rstrip (drop_last (drop_last full))).
Proof.
  eexists. split; [apply ServiceInfo_init_eq|]. simpl.
  unfold normalize, normalized_full_of.
  destruct (cls_doc service_class) as [doc|]; [|by left].
  destruct (truthy doc); [|by left]. simpl. unfold deduplicated_full.
  destruct (truthy (normalized_full doc)); [|by left].
  destruct (drop_period_cases (spec_description (normalized_full doc))
              (normalized_full doc)) as [->|[Hp1 ->]].
  - destruct (drop_period_cases (raw_summary doc) (normalized_full doc))
      as [->|[Hp2 ->]]; [by left | by right; left].
  - destruct (drop_period_cases (raw_summary doc)
                (drop_last (normalized_full doc))) as [->|[Hp2 ->]];
      [by right; left | by right; right].
Qed.

Lemma drop_period_keep other full :
  truthy other = false ∨ last_char other = Some period →
  drop_period other full = full.
Proof.
  unfold drop_period, ends_with_period. intros [->|Ho]; [done|].
  destruct (truthy other); [|done]. cbn [andb].
  destruct (bool_decide_reflect (last_char full = Some period)) as [Hp|Hp];
    [|done].
  cbn [andb]. rewrite bool_decide_eq_false_2; [done|].
  rewrite Hp, Ho. intros Hc. by apply Hc.
Qed.

(** A final period of the formatted text is kept when the first line of
    the docstring ends in a period and the description is empty or ends
    in one too. *)
Theorem period_kept name service_class doc :
  cls_doc service_class = Some doc →
  last_char (raw_summary doc) = Some period →
  spec_description (normalized_full doc) = ""
  ∨ last_char (spec_description (normalized_full doc)) = Some period →
  ∃ info, ServiceInfo_init name service_class = Ok info
    ∧ doc_full (info_docstring info) = rstrip (normalized_full doc).
Proof.
  intros Hdoc Hsum Hdesc.
  assert (Htruthy : truthy doc = true).
  { destruct doc; [|done]. by vm_compute in Hsum. }
  eexists. split; [apply ServiceInfo_init_eq|]. simpl.
  unfold normalize. rewrite Hdoc, Htruthy. simpl. f_equal.
  unfold deduplicated_full. destruct (truthy (normalized_full doc)); [|done].
  rewrite (drop_period_keep (spec_description _)).
  - apply drop_period_keep. by right.
  - destruct Hdesc as [->|Hd]; [by left | by right].
Qed.

(** A final period of the formatted text is dropped when the first line
    of the docstring does not end in one: the full text stored is a prefix
    of the formatted text less its period. *)
Theorem period_dropped name service_class doc c :
  cls_doc service_class = Some doc →
  last_char (raw_summary doc) = Some c →
  c ≠ period →
  ends_with_period (normalized_full doc) = true →
  ∃ info, ServiceInfo_init name service_class = Ok info
    ∧ str_prefix (doc_full (info_docstring info))
                 (drop_last (normalized_full doc)).
Proof.
  intros Hdoc Hsum Hne Hfull.
  assert (Htruthy : truthy doc = true).
  { destruct doc; [|done]. by vm_compute in Hsum. }
  assert (Hraw : truthy (raw_summary doc) = true).
  { apply truthy_true_iff. intros Hnil. by rewrite Hnil in Hsum. }
  assert (Hdrop : ∀ full, ends_with_period full = true →
            drop_period (raw_summary doc) full = drop_last full).
  { intros full Hf. unfold drop_period. rewrite Hf, Hraw. simpl.
    rewrite bool_decide_eq_true_2; [done|].
    apply bool_decide_eq_true in Hf. rewrite Hf, Hsum. congruence. }
  eexists. split; [apply ServiceInfo_init_eq|]. simpl.
  unfold normalize. rewrite Hdoc, Htruthy. simpl.
  eapply str_prefix_trans; [apply rstrip_by_prefix|].
  unfold deduplicated_full.
  assert (Hnf : truthy (normalized_full doc) = true).
  { apply bool_decide_eq_true in Hfull. apply truthy_true_iff.
    intros Hnil. by rewrite Hnil in Hfull. }
  rewrite Hnf. unfold drop_period at 2. case_match.
  - apply drop_period_prefix.
  - rewrite Hdrop by done. apply str_prefix_refl.
Qed.

End Stored.

(** ** The schema per dialect *)

Section Schema.
Context `{Imports}.

(** The entry [_add_simple_io] files for one dialect. *)
Definition bunch_of (sio : SimpleIODecl) (api_spec_info : ApiSpecInfo)
  : SimpleIOBunch :=
  {| sio_input_required := param_list api_spec_info (decl_input_required sio);
     sio_output_required := param_list api_spec_info (decl_output_required sio);
     sio_input_optional := param_list api_spec_info (decl_input_optional sio);
     sio_output_optional := param_list api_spec_info (decl_output_optional sio);
     sio_request_elem := decl_request_elem sio;
     sio_response_elem := decl_response_elem sio;
     sio_spec_name := spec_name api_spec_info |}.

Lemma foldl_insert_by_notin {A B} (key : A → string) (val : A → B)
    (l : list A) (m : gmap string B) k :
  k ∉ key <$> l →
  foldl (λ m a, <[key a := val a]> m) m l !! k = m !! k.
Proof.
  revert m. induction l as [|a l IH]; intros m Hk; simpl; [done|].
  rewrite fmap_cons, not_elem_of_cons in Hk. destruct Hk as [Hne Hk].
  rewrite IH by done. by rewrite lookup_insert_ne.
Qed.

Lemma foldl_insert_by_in {A B} (key : A → string) (val : A → B)
    (l : list A) (m : gmap string B) a :
  NoDup (key <$> l) → a ∈ l →
  foldl (λ m a, <[key a := val a]> m) m l !! key a = Some (val a).
Proof.
  revert m. induction l as [|b l IH]; intros m Hnd Hin; simpl.
  { by apply elem_of_nil in Hin. }
  rewrite fmap_cons in Hnd. apply NoDup_cons in Hnd as [Hb Hnd].
  apply elem_of_cons in Hin as [->|Hin]; [|by apply IH].
  rewrite foldl_insert_by_notin by done. apply lookup_insert_eq.
Qed.

Lemma foldl_insert_by_is_Some {A B} (key : A → string) (val : A → B)
    (l : list A) (m : gmap string B) k :
  is_Some (foldl (λ m a, <[key a := val a]> m) m l !! k)
  ↔ is_Some (m !! k) ∨ k ∈ key <$> l.
Proof.
  revert m. induction l as [|a l IH]; intros m; simpl.
  { split; [by left|]. intros [?|?%elem_of_nil]; done. }
  rewrite IH, lookup_insert_is_Some, elem_of_cons. split.
  - intros [[->|[_ ?]]|?]; [right; by left | by left | right; by right].
  - intros [?|[->|?]]; [|left; by left | by right].
    left. destruct (decide (key a = k)); [by left | by right].
Qed.

Lemma set_config_simple_io self :
  info_simple_io (set_config self)
  = match cls_SimpleIO (info_service_class self) with
    | None => info_simple_io self
    | Some sio =>
        foldl (λ simple_io api_spec_info,
                 <[spec_name api_spec_info := bunch_of sio api_spec_info]>
                   simple_io)
              (info_simple_io self) SIO_TYPE_MAP
    end.
Proof.
  unfold set_config, _add_simple_io.
  assert (Hc : info_service_class (_add_services_from_invokes self)
               = info_service_class self).
  { unfold _add_services_from_invokes. repeat case_match; done. }
  assert (Hs : info_simple_io (_add_services_from_invokes self)
               = info_simple_io self).
  { unfold _add_services_from_invokes. repeat case_match; done. }
  rewrite Hc. destruct (cls_SimpleIO (info_service_class self)); [|done].
  simpl. by rewrite Hs.
Qed.

Lemma param_list_names api_spec_info params :
  pi_name <$> param_list api_spec_info params = declared_name <$> params.
Proof.
  rewrite param_list_fmap. induction params as [|p params IH]; [done|].
  rewrite !fmap_cons, IH. by destruct p.
Qed.

(** For a class that declares a schema, when the dialects of the table
    have distinct names, the descriptor holds one entry per dialect and
    none besides; the entry of a dialect carries its name and the two
    element names of the declaration, and in each of the four groups the
    names of the parameters declared, in the order declared. *)
Theorem simple_io_per_dialect name service_class sio :
  cls_SimpleIO service_class = Some sio →
  NoDup (spec_name <$> SIO_TYPE_MAP) →
  ∃ info, ServiceInfo_init name service_class = Ok info
    ∧ (∀ dialect, is_Some (info_simple_io info !! dialect)
                  ↔ dialect ∈ spec_name <$> SIO_TYPE_MAP)
    ∧ ∀ api_spec_info, api_spec_info ∈ SIO_TYPE_MAP →
        ∃ bunch,
          info_simple_io info !! spec_name api_spec_info = Some bunch
          ∧ sio_spec_name bunch = spec_name api_spec_info
          ∧ sio_request_elem bunch = decl_request_elem sio
          ∧ sio_response_elem bunch = decl_response_elem sio
          ∧ pi_name <$> sio_input_required bunch
            = declared_name <$> decl_input_required sio
          ∧ pi_name <$> sio_output_required bunch
            = declared_name <$> decl_output_required sio
          ∧ pi_name <$> sio_input_optional bunch
            = declared_name <$> decl_input_optional sio
          ∧ pi_name <$> sio_output_optional bunch
            = declared_name <$> decl_output_optional sio.
Proof.
  intros Hsio Hnd. eexists. split; [apply ServiceInfo_init_eq|]. simpl.
  rewrite set_config_simple_io. simpl. rewrite Hsio. split.
  - intros dialect.
    rewrite (foldl_insert_by_is_Some spec_name (bunch_of sio)), lookup_empty.
    split; [intros [[? [=]]|?]; done | by right].
  - intros api Hin. exists (bunch_of sio api). split.
    + by apply (foldl_insert_by_in spec_name (bunch_of sio)).
    + simpl. by rewrite !param_list_names.
Qed.

End Schema.

(** ** Reverse edges come from declared ones *)

Section Sound.
Context `{Imports}.

(** Every source in the [invoked_by] of a record of a new generator is a
    service of the graph, filed for an entry that is kept, whose [invokes]
    names the record. *)
Theorem invoked_by_sound store filter ignore_prefix :
  ∃ out self',
    get_info (Generator_init store filter) ignore_prefix = Ok (out, self')
    ∧ ∀ item source, item ∈ out → source ∈ item_invoked_by item →
        source ∈ retained_names ignore_prefix store
        ∧ ∃ info, gen_services self' !! source = Some info
                  ∧ item_name item ∈ info_invokes info.
Proof.
  destruct (get_info_eq (Generator_init store filter) ignore_prefix)
    as (self' & Hp & Hg).
  rewrite parse_new in Hp. injection Hp as <-. cbv zeta in Hg. simpl in Hg.
  do 2 eexists. split; [exact Hg|]. simpl.
  set (services := foldl (file_entry ignore_prefix) ∅ store).
  intros item source Hitem Hsrc.
  apply visible_items_elem in Hitem as (name & info & _ & _ & Hl & ->).
  pose proof (parse_assign_keyed _ (parse_invoked_by (parse_invokes services ∅) ∅)
                (filed_keyed ignore_prefix store) _ _ Hl) as Hname.
  cbn [item_of item_name item_invoked_by] in *. rewrite Hname.
  rewrite parse_assign_lookup in Hl. fold services in Hl.
  destruct (services !! name) as [info0|] eqn:E; [|done].
  injection Hl as <-. simpl in Hsrc.
  rewrite elem_of_sorted, parse_invoked_by_iff in Hsrc.
  destruct Hsrc as (targets & Hinv & Hin).
  destruct (services !! source) as [src|] eqn:Es.
  - rewrite (parse_invokes_lookup _ _ _ _ Es) in Hinv. injection Hinv as <-.
    split.
    + apply filed_is_Some. fold services. by eexists.
    + exists (set_invoked_by
                (default [] (parse_invoked_by (parse_invokes services ∅) ∅
                             !! source)) src).
      split; [|done]. rewrite parse_assign_lookup. fold services.
      by rewrite Es.
  - rewrite parse_invokes_lookup_None, lookup_empty in Hinv by done. done.
Qed.

End Sound.

(** ** The further properties on concrete inputs *)

(** Three entries declaring the name [foo]: an old one, a new one, and one
    under the prefix [zato]. *)
Definition collision_store : list (string * Details) :=
  [ ("pkg.Old", {| details_name := "foo";
                   details_service_class := no_doc_class (InvStr "old") |});
    ("pkg.New", {| details_name := "foo";
                   details_service_class := no_doc_class (InvStr "new") |});
    ("zato.Other", {| details_name := "foo";
                      details_service_class := no_doc_class (InvStr "other") |}) ].

(** A class declaring a schema and nothing else. *)
Definition schema_class : ServiceClass :=
  {| cls_invokes := InvAbsent;
     cls_SimpleIO :=
       Some {| decl_input_required := [PStr "user_id"; PElem AsIs "payload"];
               decl_output_required := [PStr "is_active"];
               decl_input_optional := [];
               decl_output_optional := [PElem (Elem "Integer") "total"];
               decl_request_elem := Some "request";
               decl_response_elem := None |};
     cls_doc := None |}.

(** The filter [foo] on [edge_store] returns the record of [foo] alone. *)
Lemma filter_exact_witness :
  edges_of <$> @get_info sample_imports
                 (Generator_init edge_store (Some "foo")) "zato"
  = Ok [("foo", ["bar"], [])]
  ∧ ∃ out self',
      @get_info sample_imports (Generator_init edge_store (Some "foo")) "zato"
      = Ok (out, self')
      ∧ out = match gen_services self' !! "foo" with
              | Some info => [item_of info]
              | None => []
              end
      ∧ (is_Some (gen_services self' !! "foo")
         ↔ "foo" ∈ retained_names "zato" edge_store).
Proof.
  split; [by vm_compute|].
  exact (@filter_exact sample_imports edge_store "foo" "zato" eq_refl).
Defined.

(** In [collision_store] the record of [foo] is that of [pkg.New]. *)
Lemma last_entry_wins_witness :
  edges_of <$> @get_info sample_imports
                 (Generator_init collision_store None) "zato"
  = Ok [("foo", ["new"], [])]
  ∧ ∃ out self' item,
      @get_info sample_imports (Generator_init collision_store None) "zato"
      = Ok (out, self')
      ∧ item ∈ out
      ∧ item_name item = "foo"
      ∧ item_invokes item = sorted (declared_invokes (InvStr "new"))
      ∧ docs_summary (item_docs item) = ""
      ∧ docs_description (item_docs item) = ""
      ∧ docs_full (item_docs item) = "".
Proof.
  split; [by vm_compute|].
  apply (@last_entry_wins sample_imports
           [("pkg.Old", {| details_name := "foo";
                           details_service_class := no_doc_class (InvStr "old") |})]
           ("pkg.New", {| details_name := "foo";
                          details_service_class := no_doc_class (InvStr "new") |})
           [("zato.Other", {| details_name := "foo";
                              details_service_class :=
                                no_doc_class (InvStr "other") |})]
           "zato"); [reflexivity|].
  apply (bool_decide_unpack _). by vm_compute.
Defined.

(** [edge_store] read in the other order gives the same records. *)
Lemma store_order_irrelevant_witness :
  fst <$> @get_info sample_imports (Generator_init edge_store None) "zato"
  = fst <$> @get_info sample_imports
              (Generator_init (reverse edge_store) None) "zato".
Proof.
  apply (@store_order_irrelevant sample_imports edge_store (reverse edge_store)
           None "zato").
  - apply perm_swap.
  - apply (bool_decide_unpack _). by vm_compute.
Defined.

(** The docstring [Do foo.] keeps the period of its full text. *)
Lemma period_kept_witness :
  @normalized_full sample_imports "Do foo." = "Do foo."
  ∧ ∃ info, @ServiceInfo_init sample_imports "svc"
              {| cls_invokes := InvAbsent; cls_SimpleIO := None;
                 cls_doc := Some "Do foo." |} = Ok info
    ∧ doc_full (info_docstring info)
      = Text.rstrip (@normalized_full sample_imports "Do foo.").
Proof.
  split; [reflexivity|].
  apply (@period_kept sample_imports "svc"
           {| cls_invokes := InvAbsent; cls_SimpleIO := None;
              cls_doc := Some "Do foo." |} "Do foo.");
    [reflexivity | reflexivity | left; reflexivity].
Defined.

(** The docstring [Do foo] is formatted to [Do foo.] and stored without
    the period. *)
Lemma period_dropped_witness :
  @normalized_full sample_imports "Do foo" = "Do foo."
  ∧ (doc_full ∘ info_docstring) <$> @ServiceInfo_init sample_imports "svc"
      {| cls_invokes := InvAbsent; cls_SimpleIO := None;
         cls_doc := Some "Do foo" |} = Ok "Do foo"
  ∧ ∃ info, @ServiceInfo_init sample_imports "svc"
              {| cls_invokes := InvAbsent; cls_SimpleIO := None;
                 cls_doc := Some "Do foo" |} = Ok info
    ∧ str_prefix (doc_full (info_docstring info))
                 (Text.drop_last (@normalized_full sample_imports "Do foo")).
Proof.
  split; [reflexivity|]. split; [reflexivity|].
  apply (@period_dropped sample_imports "svc"
           {| cls_invokes := InvAbsent; cls_SimpleIO := None;
              cls_doc := Some "Do foo" |} "Do foo" "o");
    [reflexivity | reflexivity | discriminate | reflexivity].
Defined.

(** The schema of [schema_class] under the sample table. *)
Lemma simple_io_per_dialect_witness :
  ∃ info, @ServiceInfo_init sample_imports "svc" schema_class = Ok info
    ∧ (∀ dialect, is_Some (info_simple_io info !! dialect)
                  ↔ dialect ∈ spec_name <$> @SIO_TYPE_MAP sample_imports)
    ∧ ∀ api_spec_info, api_spec_info ∈ @SIO_TYPE_MAP sample_imports →
        ∃ bunch,
          info_simple_io info !! spec_name api_spec_info = Some bunch
          ∧ sio_spec_name bunch = spec_name api_spec_info
          ∧ sio_request_elem bunch = Some "request"
          ∧ sio_response_elem bunch = None
          ∧ pi_name <$> sio_input_required bunch = ["user_id"; "payload"]
          ∧ pi_name <$> sio_output_required bunch = ["is_active"]
          ∧ pi_name <$> sio_input_optional bunch = []
          ∧ pi_name <$> sio_output_optional bunch = ["total"].
Proof.
  apply (@simple_io_per_dialect sample_imports "svc" schema_class
           {| decl_input_required := [PStr "user_id"; PElem AsIs "payload"];
              decl_output_required := [PStr "is_active"];
              decl_input_optional := [];
              decl_output_optional := [PElem (Elem "Integer") "total"];
              decl_request_elem := Some "request";
              decl_response_elem := None |} eq_refl).
  apply NoDup_singleton.
Defined.

(** * The call of [format_docstring]

    Above, [format_docstring] stands for the text the call returns. The
    call itself can raise: docformatter asserts on the quotes of its
    argument. This part reads the methods with the call as it is, a text
    or an exception, and shows that the methods raise nothing else; the
    statements above are about what the methods compute when the call
    returns ([Raising_get_info_returns] and the lemmas before it). *)

Class Docformatter := {
  (** [format_docstring(indentation, docstring, post_description_blank=False)]:
      the text returned, or the exception raised. *)
  format_docstring_call : string → string → result string;
}.

(** The docstring stored for a docstring [doc] that is not empty, given
    the text [format_docstring] returned. *)
Definition stored_docstring (doc formatted : string) : Docstring :=
  let full :=
    Text.rstrip_by Text.is_dquote (Text.lstrip_by Text.is_dquote formatted) in
  {| doc_summary := Text.strip (raw_summary doc);
     doc_description := spec_description full;
     doc_full :=
       Text.rstrip
         (if Text.truthy full
          then drop_period (raw_summary doc)
                 (drop_period (spec_description full) full)
          else full) |}.

Module Raising.
Section Methods.
Context `{Imports} `{Docformatter}.

(** [ServiceInfo.set_summary_desc] *)
Definition set_summary_desc (self : ServiceInfo) : result ServiceInfo :=
  match cls_doc (info_service_class self) with
  | None => Ok self
  | Some doc =>
    if negb (Text.truthy doc) then Ok self else
    let split := Text.splitlines doc in
    summary ← getitem split 0;
    doc ← (if bool_decide (1 < length split) then
             first ← getitem split 0;
             Ok (Text.join Text.newline ([first] ++ [""] ++ drop 1 split))
           else Ok doc);
    full_docstring ← format_docstring_call "" (Text.quoted doc);
    let full_docstring :=
      Text.rstrip_by Text.is_dquote (Text.lstrip_by Text.is_dquote full_docstring) in
    let description := Text.splitlines full_docstring in
    description ← (if bool_decide (1 < length description) then
                     second ← getitem description 1;
                     if negb (Text.truthy second)
                     then Ok (Text.join Text.newline (drop 2 description))
                     else Ok ""
                   else Ok "");
    full_docstring ← (if Text.truthy full_docstring then
                        full_docstring ←
                          drop_period_unless description full_docstring;
                        drop_period_unless summary full_docstring
                      else Ok full_docstring);
    Ok (set_docstring
          {| doc_summary := Text.strip summary;
             doc_description := description;
             doc_full := Text.rstrip full_docstring |}
          self)
  end.

(** [ServiceInfo.parse] *)
Definition ServiceInfo_parse (self : ServiceInfo) : result ServiceInfo :=
  set_summary_desc (set_config self).

(** [ServiceInfo.__init__] *)
Definition ServiceInfo_init (name : string) (service_class : ServiceClass)
  : result ServiceInfo :=
  ServiceInfo_parse (ServiceInfo_attrs name service_class).

(** First loop of [Generator.parse]. *)
Fixpoint parse_services (ignore_prefix : string)
    (items : list (string * Details)) (services : gmap string ServiceInfo)
  : result (gmap string ServiceInfo) :=
  match items with
  | [] => Ok services
  | (impl_name, details) :: items =>
      if negb (Text.startswith impl_name ignore_prefix) then
        info ← ServiceInfo_init (details_name details)
                                (details_service_class details);
        parse_services ignore_prefix items (<[info_name info := info]> services)
      else parse_services ignore_prefix items services
  end.

(** [Generator.parse] *)
Definition parse (self : Generator) (ignore_prefix : string)
  : result Generator :=
  services ← parse_services ignore_prefix
               (gen_service_store_services self) (gen_services self);
  let invokes := parse_invokes services (gen_invokes self) in
  let invoked_by := parse_invoked_by invokes (gen_invoked_by self) in
  Ok {| gen_service_store_services := gen_service_store_services self;
        gen_filter := gen_filter self;
        gen_services := parse_assign services invoked_by;
        gen_invokes := invokes;
        gen_invoked_by := invoked_by |}.

(** [Generator.get_info] *)
Definition get_info (self : Generator) (ignore_prefix : string)
  : result (list Item * Generator) :=
  self ← parse self ignore_prefix;
  out ← get_info_loop self (sorted (keys (gen_services self))) [];
  Ok (out, self).

End Methods.
End Raising.

(** The imports with, for [format_docstring], the text the call returns. *)
Definition returned `{Docformatter} (imports : Imports) : Imports :=
  {| format_docstring := λ indentation docstring,
       match format_docstring_call indentation docstring with
       | Ok text => text
       | Raise _ => ""
       end;
     SIO_TYPE_MAP := @SIO_TYPE_MAP imports;
     is_bool := @is_bool imports;
     is_int := @is_int imports;
     BOOL_PARAMETERS_SUFFIXES := @BOOL_PARAMETERS_SUFFIXES imports;
     INT_PARAMETERS_VALUES := @INT_PARAMETERS_VALUES imports;
     INT_PARAMETERS_SUFFIXES := @INT_PARAMETERS_SUFFIXES imports |}.

(** The docstring of an entry makes [format_docstring] raise [e]. *)
Definition formatter_raises `{Docformatter} (entry : string * Details)
    (e : PyError) : Prop :=
  ∃ doc, cls_doc (details_service_class entry.2) = Some doc
         ∧ Text.truthy doc = true
         ∧ format_docstring_call "" (Text.quoted (canonical_doc doc)) = Raise e.

(** A sample of the call: [sample_format_docstring] behind the assertion
    docformatter makes on an argument that opens with three double quotes,
    which must close with three. *)
Definition sample_docformatter : Docformatter :=
  {| format_docstring_call := λ indentation docstring,
       let text := Text.strip docstring in
       if Text.startswith text triple_quote
          && negb (Text.startswith (String.rev text) triple_quote)
       then Raise AssertionError
       else Ok (sample_format_docstring indentation docstring) |}.

(** A docstring that opens with two double quotes. *)
Definition quotes_docstring : string :=
  String Text.dquote (String Text.dquote "summary").

(** A service invoked by one whose identifier is under the prefix. *)
Definition ignored_caller_store : list (string * Details) :=
  [ ("pkg.Foo", {| details_name := "foo";
                   details_service_class := no_doc_class InvAbsent |});
    ("zato.Helper", {| details_name := "helper";
                       details_service_class := no_doc_class (InvStr "foo") |}) ].

(** [foo_bar_store] with a third service whose docstring opens with two
    double quotes. *)
Definition quotes_store : list (string * Details) :=
  foo_bar_store
  ++ [ ("pkg.Quotes",
        {| details_name := "quotes";
           details_service_class :=
             {| cls_invokes := InvAbsent; cls_SimpleIO := None;
                cls_doc := Some quotes_docstring |} |}) ].

(** ** The methods raise what the call raises, and nothing else *)

Section RaisingLemmas.
Context `{Imports} `{Docformatter}.
Import Text.

Lemma Raising_set_summary_desc_eq self :
  Raising.set_summary_desc self
  = match cls_doc (info_service_class self) with
    | Some doc =>
        if truthy doc then
          formatted ← format_docstring_call "" (quoted (canonical_doc doc));
          Ok (set_docstring (stored_docstring doc formatted) self)
        else Ok self
    | None => Ok self
    end.
Proof.
  unfold Raising.set_summary_desc.
  destruct (cls_doc (info_service_class self)) as [doc|]; [|done].
  destruct (truthy doc) eqn:Hdoc; cbn [negb]; [|done].
  cbv zeta.
  destruct (splitlines_truthy doc Hdoc) as (l & ls & Hsplit).
  assert (Hraw : raw_summary doc = l) by (unfold raw_summary; by rewrite Hsplit).
  assert (Hget : getitem (splitlines doc) 0 = Ok l)
    by (unfold getitem; by rewrite Hsplit).
  rewrite Hget, !bind_Ok.
  assert (Hcanon :
    (if bool_decide (1 < length (splitlines doc)) then
       Ok (join newline ([l] ++ [""] ++ drop 1 (splitlines doc)))
     else Ok doc) = Ok (canonical_doc doc)).
  { unfold canonical_doc. rewrite Hraw. by case_bool_decide. }
  rewrite Hcanon, bind_Ok.
  destruct (format_docstring_call "" (quoted (canonical_doc doc)))
    as [formatted|e]; [|done].
  rewrite !bind_Ok. unfold stored_docstring. cbv zeta. rewrite Hraw.
  set (full := rstrip_by is_dquote (lstrip_by is_dquote formatted)).
  pose proof (description_read full) as Hread.
  cbv zeta in Hread. rewrite Hread, bind_Ok.
  destruct (truthy full) eqn:Hfull; [|done].
  rewrite drop_period_unless_eq, bind_Ok by done.
  rewrite drop_period_unless_eq, bind_Ok by by apply drop_period_desc_truthy.
  done.
Qed.

Lemma set_docstring_same self :
  set_docstring (info_docstring self) self = self.
Proof. by destruct self. Qed.

Lemma Raising_init_eq name service_class :
  Raising.ServiceInfo_init name service_class
  = match cls_doc service_class with
    | Some doc =>
        if truthy doc then
          formatted ← format_docstring_call "" (quoted (canonical_doc doc));
          Ok (set_docstring (stored_docstring doc formatted)
                (set_config (ServiceInfo_attrs name service_class)))
        else Ok (set_config (ServiceInfo_attrs name service_class))
    | None => Ok (set_config (ServiceInfo_attrs name service_class))
    end.
Proof.
  unfold Raising.ServiceInfo_init, Raising.ServiceInfo_parse.
  by rewrite Raising_set_summary_desc_eq, set_config_class.
Qed.

(** When the constructor returns, it returns what the constructor above
    returns with the text of the call for [format_docstring]. *)
Lemma Raising_init_returns name service_class info :
  Raising.ServiceInfo_init name service_class = Ok info →
  @ServiceInfo_init (returned _) name service_class = Ok info.
Proof.
  rewrite Raising_init_eq, (@ServiceInfo_init_eq (returned _)).
  change (@set_config (returned _)) with (@set_config _).
  unfold normalize.
  pose proof (set_config_docstring (ServiceInfo_attrs name service_class)) as Hd.
  pose proof (set_docstring_same
                (set_config (ServiceInfo_attrs name service_class))) as Hs.
  rewrite Hd in Hs. simpl in Hs.
  destruct (cls_doc service_class) as [doc|]; [|by rewrite Hs].
  destruct (truthy doc); [|by rewrite Hs].
  unfold stored_docstring, deduplicated_full, normalized_full. simpl.
  destruct (format_docstring_call "" (quoted (canonical_doc doc))); [|done].
  by rewrite bind_Ok.
Qed.

Lemma Raising_init_raises name service_class e :
  Raising.ServiceInfo_init name service_class = Raise e →
  ∃ doc, cls_doc service_class = Some doc ∧ truthy doc = true
         ∧ format_docstring_call "" (quoted (canonical_doc doc)) = Raise e.
Proof.
  rewrite Raising_init_eq.
  destruct (cls_doc service_class) as [doc|]; [|done].
  destruct (truthy doc) eqn:Hdoc; [|done].
  destruct (format_docstring_call "" (quoted (canonical_doc doc))) eqn:E;
    [done|].
  intros [= <-]. by exists doc.
Qed.

Lemma Raising_parse_services_returns ignore_prefix items services services' :
  Raising.parse_services ignore_prefix items services = Ok services' →
  @parse_services (returned _) ignore_prefix items services = Ok services'.
Proof.
  revert services. induction items as [|[impl_name details] items IH];
    intros services; simpl; [done|].
  destruct (negb _); [|apply IH].
  destruct (Raising.ServiceInfo_init _ _) as [info|e] eqn:E; [|done].
  rewrite (Raising_init_returns _ _ _ E), !bind_Ok. apply IH.
Qed.

(** The first loop raises what the call raises on the docstring of an
    entry that is kept. *)
Lemma Raising_parse_services_raises ignore_prefix items services e :
  Raising.parse_services ignore_prefix items services = Raise e →
  ∃ entry, entry ∈ items ∧ retained ignore_prefix entry = true
           ∧ formatter_raises entry e.
Proof.
  revert services. induction items as [|[impl_name details] items IH];
    intros services; simpl; [done|].
  destruct (negb (startswith impl_name ignore_prefix)) eqn:Hr.
  - destruct (Raising.ServiceInfo_init _ _) as [info|e'] eqn:E.
    + rewrite bind_Ok. intros (entry & Hin & ?)%IH.
      exists entry. split; [by right | done].
    + intros [= <-]. apply Raising_init_raises in E.
      exists (impl_name, details). split; [by left|]. split; [exact Hr|].
      exact E.
  - intros (entry & Hin & ?)%IH. exists entry. split; [by right | done].
Qed.

(** It returns only when the call returns on every such docstring. *)
Lemma Raising_parse_services_formats ignore_prefix items services services' :
  Raising.parse_services ignore_prefix items services = Ok services' →
  ∀ entry e, entry ∈ items → retained ignore_prefix entry = true →
             ¬ formatter_raises entry e.
Proof.
  revert services. induction items as [|[impl_name details] items IH];
    intros services; simpl.
  { intros _ entry e Hin. by apply elem_of_nil in Hin. }
  destruct (negb (startswith impl_name ignore_prefix)) eqn:Hr.
  - destruct (Raising.ServiceInfo_init _ _) as [info|e'] eqn:E; [|done].
    rewrite bind_Ok. intros Hp entry e [->|Hin]%elem_of_cons Hret.
    + intros (doc & Hdoc & Htruthy & Hcall). rewrite Raising_init_eq in E.
      simpl in Hdoc. rewrite Hdoc, Htruthy, Hcall in E. done.
    + by eapply IH.
  - intros Hp entry e [->|Hin]%elem_of_cons Hret.
    + unfold retained in Hret. simpl in Hret. congruence.
    + by eapply IH.
Qed.

Lemma Raising_parse_returns self ignore_prefix self' :
  Raising.parse self ignore_prefix = Ok self' →
  @parse (returned _) self ignore_prefix = Ok self'.
Proof.
  unfold Raising.parse, parse.
  destruct (Raising.parse_services _ _ _) as [services|e] eqn:E; [|done].
  by rewrite (Raising_parse_services_returns _ _ _ _ E).
Qed.

Lemma Raising_parse_raises self ignore_prefix e :
  Raising.parse self ignore_prefix = Raise e →
  ∃ entry, entry ∈ gen_service_store_services self
           ∧ retained ignore_prefix entry = true
           ∧ formatter_raises entry e.
Proof.
  unfold Raising.parse.
  destruct (Raising.parse_services _ _ _) as [services|e'] eqn:E; [done|].
  intros [= <-]. by eapply Raising_parse_services_raises.
Qed.

(** When [get_info] returns, it returns what [get_info] above returns
    with the text of the call for [format_docstring]. *)
Lemma Raising_get_info_returns self ignore_prefix out self' :
  Raising.get_info self ignore_prefix = Ok (out, self') →
  @get_info (returned _) self ignore_prefix = Ok (out, self').
Proof.
  unfold Raising.get_info, get_info.
  destruct (Raising.parse self ignore_prefix) as [self2|e] eqn:E; [|done].
  by rewrite (Raising_parse_returns _ _ _ E).
Qed.

(** The loop of [get_info] raises nothing: what [get_info] raises,
    [parse] raised. *)
Lemma Raising_get_info_raises self ignore_prefix e :
  Raising.get_info self ignore_prefix = Raise e →
  Raising.parse self ignore_prefix = Raise e.
Proof.
  unfold Raising.get_info.
  destruct (Raising.parse self ignore_prefix) as [self2|e'] eqn:E;
    [|by intros [= <-]].
  rewrite bind_Ok, get_info_loop_eq.
  - by rewrite bind_Ok.
  - intros name. by rewrite elem_of_sorted, elem_of_keys.
Qed.

End RaisingLemmas.

(** ** The records of a new generator, read off the store *)

Section FromStore.
Context `{Imports}.

(** A service filed by the first loop is the object built for an entry
    that is kept and declares its name. *)
Lemma filed_value ignore_prefix store name info :
  foldl (file_entry ignore_prefix) ∅ store !! name = Some info →
  ∃ entry, entry ∈ store ∧ retained ignore_prefix entry = true
           ∧ details_name entry.2 = name
           ∧ info = ServiceInfo_value name (details_service_class entry.2).
Proof.
  induction store as [|entry store IH]; simpl.
  { by rewrite lookup_empty. }
  rewrite filed_lookup.
  destruct (foldl (file_entry ignore_prefix) ∅ store !! name) as [i|] eqn:E.
  - intros [= <-]. destruct (IH eq_refl) as (e & Hin & ?).
    exists e. split; [by right | done].
  - unfold file_entry. destruct (retained ignore_prefix entry) eqn:Hr;
      [|by rewrite lookup_empty].
    rewrite lookup_insert. case_decide as Hn; [|by rewrite lookup_empty].
    intros [= <-]. exists entry. split; [by left|]. by rewrite Hn.
Qed.

Lemma ServiceInfo_value_invokes name service_class :
  info_invokes (ServiceInfo_value name service_class)
  = declared_invokes (cls_invokes service_class).
Proof. unfold ServiceInfo_value. simpl. by rewrite set_config_invokes. Qed.

(** What [get_info] returns on a new generator whose filter lets every
    name through: a record for each name declared by an entry that is
    kept, each built from the service of that name in the graph, whose
    invokes are those declared by such an entry and whose [invoked_by]
    holds the services of the graph that invoke it. *)
Lemma records_unfiltered store filter ignore_prefix :
  (∀ name, filtered_out filter name = false) →
  ∃ out self',
    get_info (Generator_init store filter) ignore_prefix = Ok (out, self')
    ∧ item_name <$> out = sorted (keys (gen_services self'))
    ∧ (∀ name, name ∈ item_name <$> out
               ↔ name ∈ retained_names ignore_prefix store)
    ∧ Forall (λ item,
        ∃ info entry,
          gen_services self' !! item_name item = Some info
          ∧ item = item_of info
          ∧ entry ∈ store
          ∧ retained ignore_prefix entry = true
          ∧ details_name entry.2 = item_name item
          ∧ info_invokes info
            = declared_invokes (cls_invokes (details_service_class entry.2))
          ∧ ∀ source, source ∈ info_invoked_by info
              ↔ ∃ src, gen_services self' !! source = Some src
                       ∧ item_name item ∈ info_invokes src) out.
Proof.
  intros Hf.
  destruct (get_info_eq (Generator_init store filter) ignore_prefix)
    as (self' & Hp & Hg).
  rewrite parse_new in Hp. injection Hp as <-. cbv zeta in Hg. simpl in Hg.
  do 2 eexists. split; [exact Hg|]. simpl.
  set (services := foldl (file_entry ignore_prefix) ∅ store) in *.
  set (invoked_by := parse_invoked_by (parse_invokes services ∅) ∅) in *.
  assert (Hkeyed : keyed_by_name (parse_assign services invoked_by))
    by apply parse_assign_keyed, filed_keyed.
  assert (Hnames : item_name <$> visible_items filter
                     (parse_assign services invoked_by)
                     (sorted (keys (parse_assign services invoked_by)))
                   = sorted (keys (parse_assign services invoked_by))).
  { apply visible_items_names; [done| |done].
    intros name. by rewrite elem_of_sorted, elem_of_keys. }
  split; [exact Hnames|]. split.
  - intros name. rewrite Hnames, elem_of_sorted, elem_of_keys.
    rewrite parse_assign_is_Some. apply filed_is_Some.
  - apply Forall_forall. intros item Hitem.
    apply visible_items_elem in Hitem as (name & info & _ & _ & Hl & ->).
    pose proof (Hkeyed _ _ Hl) as Hname.
    cbn [item_name item_of]. rewrite Hname.
    pose proof Hl as Hl'. rewrite parse_assign_lookup in Hl'.
    destruct (services !! name) as [info0|] eqn:E; [|done].
    injection Hl' as <-.
    destruct (filed_value _ _ _ _ E) as (entry & Hin & Hr & Hn & ->).
    exists (set_invoked_by (default [] (invoked_by !! name))
              (ServiceInfo_value name (details_service_class entry.2))), entry.
    split; [exact Hl|]. split; [done|]. split; [done|]. split; [done|].
    split; [done|]. split; [apply ServiceInfo_value_invokes|].
    intros source. cbn [info_invoked_by set_invoked_by].
    unfold invoked_by. rewrite parse_invoked_by_iff. split.
    + intros (targets & Hinv & Hin').
      destruct (services !! source) as [src|] eqn:Es.
      * rewrite (parse_invokes_lookup _ _ _ _ Es) in Hinv.
        injection Hinv as <-.
        exists (set_invoked_by
                  (default [] (parse_invoked_by (parse_invokes services ∅) ∅
                               !! source)) src).
        split; [|done]. by rewrite parse_assign_lookup, Es.
      * rewrite parse_invokes_lookup_None, lookup_empty in Hinv by done. done.
    + intros (src & Hsrc & Hin'). rewrite parse_assign_lookup in Hsrc.
      destruct (services !! source) as [src0|] eqn:Es; [|done].
      injection Hsrc as <-. exists (info_invokes src0).
      split; [by apply parse_invokes_lookup | done].
Qed.

(** C5: without a filter the records come sorted by name, one for each
    name declared by an entry that is kept; in each record [invokes] and
    [invoked_by] are sorted and hold, each as often as there, what the
    service of the graph holds: the invokes declared for it in the store,
    and the services of the graph that invoke it. *)
Theorem get_info_sorted store ignore_prefix :
  ∃ out self',
    get_info (Generator_init store None) ignore_prefix = Ok (out, self')
    ∧ Sorted String.le (item_name <$> out)
    ∧ (∀ name, name ∈ item_name <$> out
               ↔ name ∈ retained_names ignore_prefix store)
    ∧ Forall (λ item,
        Sorted String.le (item_invokes item)
        ∧ Sorted String.le (item_invoked_by item)
        ∧ ∃ info entry,
            gen_services self' !! item_name item = Some info
            ∧ item_invokes item ≡ₚ info_invokes info
            ∧ item_invoked_by item ≡ₚ info_invoked_by info
            ∧ entry ∈ store
            ∧ retained ignore_prefix entry = true
            ∧ details_name entry.2 = item_name item
            ∧ info_invokes info
              = declared_invokes (cls_invokes (details_service_class entry.2))
            ∧ ∀ source, source ∈ info_invoked_by info
                ↔ ∃ src, gen_services self' !! source = Some src
                         ∧ item_name item ∈ info_invokes src) out.
Proof.
  destruct (records_unfiltered store None ignore_prefix)
    as (out & self' & Hg & Hnames & Hdom & Hitems); [done|].
  exists out, self'. split; [exact Hg|]. split.
  { rewrite Hnames. apply sorted_Sorted. }
  split; [exact Hdom|].
  eapply Forall_impl; [exact Hitems|]. simpl.
  intros item (info & entry & Hl & -> & Hin & Hr & Hn & Hinv & Hby).
  split; [apply sorted_Sorted|]. split; [apply sorted_Sorted|].
  exists info, entry. split; [exact Hl|].
  split; [apply merge_sort_Permutation|].
  split; [apply merge_sort_Permutation|]. done.
Qed.

(** C10: a generator built with the empty string as its filter returns
    what one built without a filter returns: a record for every service of
    the graph, that is for every name declared by an entry that is kept,
    built from the service of that name. *)
Theorem empty_filter_is_no_filter store ignore_prefix :
  ∃ out self',
    get_info (Generator_init store (Some "")) ignore_prefix = Ok (out, self')
    ∧ fst <$> get_info (Generator_init store None) ignore_prefix = Ok out
    ∧ item_name <$> out = sorted (keys (gen_services self'))
    ∧ (∀ name, name ∈ item_name <$> out
               ↔ name ∈ retained_names ignore_prefix store)
    ∧ Forall (λ item,
        ∃ info entry,
          gen_services self' !! item_name item = Some info
          ∧ item = item_of info
          ∧ entry ∈ store
          ∧ retained ignore_prefix entry = true
          ∧ details_name entry.2 = item_name item
          ∧ info_invokes info
            = declared_invokes (cls_invokes (details_service_class entry.2))) out.
Proof.
  destruct (records_unfiltered store (Some "") ignore_prefix)
    as (out & self' & Hg & Hnames & Hdom & Hitems); [done|].
  exists out, self'. split; [exact Hg|]. split.
  - destruct (get_info_eq (Generator_init store (Some "")) ignore_prefix)
      as (self1 & Hp1 & Hg1).
    destruct (get_info_eq (Generator_init store None) ignore_prefix)
      as (self2 & Hp2 & Hg2).
    rewrite parse_new in Hp1, Hp2. injection Hp1 as <-. injection Hp2 as <-.
    rewrite Hg in Hg1. injection Hg1 as -> _. by rewrite Hg2.
  - split; [exact Hnames|]. split; [exact Hdom|].
    eapply Forall_impl; [exact Hitems|]. simpl.
    intros item (info & entry & ? & ? & ? & ? & ? & ? & _).
    by exists info, entry.
Qed.

(** C8, as the code has it: an entry whose identifier starts with the
    prefix files nothing. The names of the graph are the names declared by
    the entries that are kept, so are the names of the records, and the
    records are those of the store with the entries under the prefix taken
    out. The name of such an entry can still stand in the [invokes] of a
    record, as [helper] does in that of [foo] in [dangling_store]; in an
    [invoked_by] stand only names declared by entries that are kept. *)
Theorem ignore_prefix_exclusion store filter ignore_prefix :
  (∃ out self',
     get_info (Generator_init store filter) ignore_prefix = Ok (out, self')
     ∧ (∀ name, is_Some (gen_services self' !! name) ↔
          ∃ entry, entry ∈ store
                   ∧ Text.startswith entry.1 ignore_prefix = false
                   ∧ details_name entry.2 = name)
     ∧ (∀ item, item ∈ out →
          ∃ entry, entry ∈ store
                   ∧ Text.startswith entry.1 ignore_prefix = false
                   ∧ details_name entry.2 = item_name item)
     ∧ fst <$> get_info (Generator_init
                           (List.filter (retained ignore_prefix) store) filter)
                 ignore_prefix
       = Ok out
     ∧ (∀ item source, item ∈ out → source ∈ item_invoked_by item →
          ∃ entry, entry ∈ store
                   ∧ Text.startswith entry.1 ignore_prefix = false
                   ∧ details_name entry.2 = source))
  ∧ edges_of <$> get_info (Generator_init dangling_store None) "zato"
    = Ok [("foo", ["helper"], [])].
Proof.
  split; [|by vm_compute].
  destruct (get_info_eq (Generator_init store filter) ignore_prefix)
    as (self' & Hp & Hg).
  rewrite parse_new in Hp. injection Hp as <-. cbv zeta in Hg. simpl in Hg.
  set (services := foldl (file_entry ignore_prefix) ∅ store) in *.
  set (invoked_by := parse_invoked_by (parse_invokes services ∅) ∅) in *.
  assert (Hkeys : ∀ name,
    is_Some (parse_assign services invoked_by !! name) ↔
    ∃ entry, entry ∈ store ∧ Text.startswith entry.1 ignore_prefix = false
             ∧ details_name entry.2 = name).
  { intros name. rewrite parse_assign_is_Some. split.
    - intros [info Hl]. destruct (filed_value _ _ _ _ Hl)
        as (entry & Hin & Hr & Hn & _).
      exists entry. split; [done|]. split; [|done]. by apply negb_true_iff.
    - intros (entry & Hin & Hr & Hn). apply filed_is_Some.
      unfold retained_names. apply list_elem_of_fmap. exists entry.
      split; [done|]. apply list_elem_of_In, filter_In.
      split; [by apply list_elem_of_In|]. by apply negb_true_iff. }
  assert (Hkeyed : keyed_by_name (parse_assign services invoked_by))
    by apply parse_assign_keyed, filed_keyed.
  do 2 eexists. split; [exact Hg|]. cbn [gen_services].
  split; [exact Hkeys|]. split; [|split].
  - intros item Hitem.
    apply visible_items_elem in Hitem as (name & info & _ & _ & Hl & ->).
    cbn [item_name item_of]. rewrite (Hkeyed _ _ Hl). apply Hkeys.
    by exists info.
  - destruct (get_info_eq
      (Generator_init (List.filter (retained ignore_prefix) store) filter)
      ignore_prefix) as (self2 & Hp2 & Hg2).
    rewrite parse_new in Hp2. injection Hp2 as <-. rewrite Hg2.
    cbv zeta. simpl.
    assert (Hsame : foldl (file_entry ignore_prefix) ∅
                      (List.filter (retained ignore_prefix) store) = services).
    { pose proof (parse_services_of_filter ignore_prefix store filter) as E.
      simpl in E. rewrite !parse_services_fold in E. by injection E as <-. }
    by rewrite Hsame.
  - intros item source Hitem Hsrc.
    by eapply invoked_by_of_retained.
Qed.

End FromStore.

(** ** What [parse] keeps and what the records are built from *)

Section Kept.
Context `{Imports}.

(** What a call of [parse] that returns leaves of the state it started
    from. *)
Lemma parse_keeps self ignore_prefix self' :
  parse self ignore_prefix = Ok self' →
  gen_service_store_services self' = gen_service_store_services self
  ∧ gen_filter self' = gen_filter self
  ∧ (∀ name, is_Some (gen_services self !! name) →
             is_Some (gen_services self' !! name))
  ∧ (∀ name, is_Some (gen_invokes self !! name) →
             is_Some (gen_invokes self' !! name))
  ∧ (∀ target source,
       source ∈ default [] (gen_invoked_by self !! target) →
       source ∈ default [] (gen_invoked_by self' !! target)).
Proof.
  destruct (parse_ok self ignore_prefix) as (services & Hs & Hp).
  rewrite Hp. intros [= <-]. simpl. repeat split.
  - intros name Hn. rewrite parse_assign_is_Some.
    apply (parse_services_keys _ _ _ _ name Hs). by left.
  - intros name. apply parse_invokes_is_Some.
  - intros target source. apply append_sources_mono.
Qed.

(** What the records of a call of [get_info] that returns are built
    from. *)
Lemma get_info_records self ignore_prefix out self' :
  get_info self ignore_prefix = Ok (out, self') →
  parse self ignore_prefix = Ok self'
  ∧ ∀ item, item ∈ out →
      Sorted String.le (item_invokes item)
      ∧ Sorted String.le (item_invoked_by item)
      ∧ ∃ name info, gen_services self' !! name = Some info
                     ∧ filtered_out (gen_filter self) name = false
                     ∧ item = item_of info.
Proof.
  destruct (get_info_eq self ignore_prefix) as (self2 & Hp & Hg).
  rewrite Hg. intros [= <- <-]. split; [exact Hp|].
  destruct (parse_keeps _ _ _ Hp) as (_ & Hf & _).
  intros item Hitem.
  apply visible_items_elem in Hitem as (name & info & _ & Hfo & Hl & ->).
  split; [apply sorted_Sorted|]. split; [apply sorted_Sorted|].
  exists name, info. rewrite <- Hf. done.
Qed.

End Kept.

(** ** The methods with the call as it is *)

Section Raises.
Context `{Imports} `{Docformatter}.
Import Text.

(** C3, as the code has it: the constructor raises nothing of its own.
    With no docstring or an empty one it returns without calling
    [format_docstring], and the docstring fields stay at their defaults.
    With a docstring that is not empty it calls [format_docstring] once,
    on the quoted docstring with the blank line put in: it returns exactly
    when the call returns, with the docstring normalised from the text of
    the call, and raises exactly what the call raises. The docstring step
    alone returns from every object whenever the call does. Whenever the
    constructor returns, the name is the one given, [invoked_by] is empty,
    and absent invokes and an absent schema leave their fields at the
    defaults. *)
Theorem constructor_raises_what_format_docstring_raises name service_class :
  (∀ doc, cls_doc service_class = Some doc → truthy doc = true →
     Raising.ServiceInfo_init name service_class
     = (formatted ← format_docstring_call "" (quoted (canonical_doc doc));
        Ok (set_docstring (stored_docstring doc formatted)
              (set_config (ServiceInfo_attrs name service_class)))))
  ∧ (∀ e, Raising.ServiceInfo_init name service_class = Raise e →
       ∃ doc, cls_doc service_class = Some doc ∧ truthy doc = true
              ∧ format_docstring_call "" (quoted (canonical_doc doc)) = Raise e)
  ∧ (cls_doc service_class = None ∨ cls_doc service_class = Some "" →
       ∃ info, Raising.ServiceInfo_init name service_class = Ok info
               ∧ info_docstring info = Docstring_init)
  ∧ (∀ self,
       (∀ doc, cls_doc (info_service_class self) = Some doc →
               truthy doc = true →
               ∃ formatted,
                 format_docstring_call "" (quoted (canonical_doc doc))
                 = Ok formatted) →
       ∃ self', Raising.set_summary_desc self = Ok self')
  ∧ (∀ info, Raising.ServiceInfo_init name service_class = Ok info →
       info_name info = name
       ∧ info_invoked_by info = []
       ∧ (cls_invokes service_class = InvAbsent → info_invokes info = [])
       ∧ (cls_SimpleIO service_class = None → info_simple_io info = ∅)).
Proof.
  split; [|split; [|split; [|split]]].
  - intros doc Hdoc Ht. by rewrite Raising_init_eq, Hdoc, Ht.
  - intros e. apply Raising_init_raises.
  - rewrite Raising_init_eq.
    intros [-> | ->]; cbn; (eexists; split; [done|]);
      by rewrite set_config_docstring.
  - intros self Hcall. rewrite Raising_set_summary_desc_eq.
    destruct (cls_doc (info_service_class self)) as [doc|]; [|by eexists].
    destruct (truthy doc) eqn:Ht; [|by eexists].
    destruct (Hcall doc eq_refl Ht) as [formatted ->]. by eexists.
  - intros info Hinit. apply Raising_init_returns in Hinit.
    rewrite ServiceInfo_init_eq in Hinit. injection Hinit as <-. simpl.
    rewrite set_config_name, set_config_invoked_by, set_config_invokes.
    split; [done|]. split; [done|]. split.
    + cbn. by intros ->.
    + destruct service_class as [invokes sio doc]. cbn. intros ->.
      unfold set_config, _add_simple_io, _add_services_from_invokes. simpl.
      repeat case_match; done.
Qed.

(** From any state, [parse] only adds to what the generator holds
    whenever it returns: the services filed, the names of [invokes] and the
    sources listed in the accumulators of [invoked_by] before the call are
    still there after it, and the store and the filter are untouched. It
    raises only what [format_docstring] raises on the docstring of an entry
    that is kept, and returns when no such call raises. *)
Theorem parse_never_forgets self ignore_prefix :
  (∀ self', Raising.parse self ignore_prefix = Ok self' →
     gen_service_store_services self' = gen_service_store_services self
     ∧ gen_filter self' = gen_filter self
     ∧ (∀ name, is_Some (gen_services self !! name) →
                is_Some (gen_services self' !! name))
     ∧ (∀ name, is_Some (gen_invokes self !! name) →
                is_Some (gen_invokes self' !! name))
     ∧ (∀ target source,
          source ∈ default [] (gen_invoked_by self !! target) →
          source ∈ default [] (gen_invoked_by self' !! target)))
  ∧ (∀ e, Raising.parse self ignore_prefix = Raise e →
       ∃ entry, entry ∈ gen_service_store_services self
                ∧ retained ignore_prefix entry = true
                ∧ formatter_raises entry e)
  ∧ ((∀ entry e, entry ∈ gen_service_store_services self →
                 retained ignore_prefix entry = true →
                 ¬ formatter_raises entry e) →
     ∃ self', Raising.parse self ignore_prefix = Ok self').
Proof.
  split; [|split].
  - intros self' Hp. apply Raising_parse_returns in Hp.
    by apply (parse_keeps _ _ _ Hp).
  - intros e. apply Raising_parse_raises.
  - intros Hnone.
    destruct (Raising.parse self ignore_prefix) as [self'|e] eqn:E;
      [by eexists|].
    destruct (Raising_parse_raises _ _ _ E) as (entry & Hin & Hr & Hraise).
    destruct (Hnone entry e Hin Hr Hraise).
Qed.

(** From every state of the generator and with every filter, no lookup
    of [get_info] raises: it raises only what [format_docstring] raises on
    the docstring of an entry that is kept, and returns when no such call
    raises. Whenever it returns, the state is the one [parse] leaves, each
    record is built from a service of the graph that passes the filter,
    and its [invokes] and [invoked_by] are sorted. *)
Theorem get_info_from_any_state self ignore_prefix :
  (∀ e, Raising.get_info self ignore_prefix = Raise e →
     ∃ entry, entry ∈ gen_service_store_services self
              ∧ retained ignore_prefix entry = true
              ∧ formatter_raises entry e)
  ∧ ((∀ entry e, entry ∈ gen_service_store_services self →
                 retained ignore_prefix entry = true →
                 ¬ formatter_raises entry e) →
     ∃ out self', Raising.get_info self ignore_prefix = Ok (out, self'))
  ∧ (∀ out self', Raising.get_info self ignore_prefix = Ok (out, self') →
       Raising.parse self ignore_prefix = Ok self'
       ∧ ∀ item, item ∈ out →
           Sorted String.le (item_invokes item)
           ∧ Sorted String.le (item_invoked_by item)
           ∧ ∃ name info, gen_services self' !! name = Some info
                          ∧ filtered_out (gen_filter self) name = false
                          ∧ item = item_of info).
Proof.
  assert (Hloop : ∀ self2, Raising.parse self ignore_prefix = Ok self2 →
    Raising.get_info self ignore_prefix
    = Ok (visible_items (gen_filter self2) (gen_services self2)
            (sorted (keys (gen_services self2))), self2)).
  { intros self2 E. unfold Raising.get_info. rewrite E, bind_Ok.
    rewrite get_info_loop_eq; [done|].
    intros name. by rewrite elem_of_sorted, elem_of_keys. }
  split; [|split].
  - intros e He. apply Raising_get_info_raises in He.
    by apply Raising_parse_raises.
  - intros Hnone.
    destruct (Raising.parse self ignore_prefix) as [self2|e] eqn:E.
    + do 2 eexists. by apply Hloop.
    + destruct (Raising_parse_raises _ _ _ E) as (entry & Hin & Hr & Hraise).
      destruct (Hnone entry e Hin Hr Hraise).
  - intros out self' Hg. split.
    + destruct (Raising.parse self ignore_prefix) as [self2|e] eqn:E.
      * rewrite (Hloop _ eq_refl) in Hg. by injection Hg as _ ->.
      * unfold Raising.get_info in Hg. by rewrite E in Hg.
    + apply Raising_get_info_returns in Hg.
      by apply (get_info_records _ _ _ _ Hg).
Qed.

End Raises.

(** ** The sample formatter at work *)

(** On a docstring that opens with two double quotes the quoted argument
    opens with three and closes with one: the call raises, and so does
    the constructor. *)
Lemma constructor_raises_on_leading_quotes :
  @Raising.ServiceInfo_init sample_imports sample_docformatter "quotes"
    {| cls_invokes := InvAbsent; cls_SimpleIO := None;
       cls_doc := Some quotes_docstring |}
  = Raise AssertionError.
Proof. by vm_compute. Qed.

(** A service invoked only by an entry under the prefix has an empty
    [invoked_by]: the name of the entry does not stand there. *)
Lemma ignored_caller_not_in_invoked_by :
  edges_of <$> @get_info sample_imports
                 (Generator_init ignored_caller_store None) "zato"
  = Ok [("foo", [], [])].
Proof. by vm_compute. Qed.

(** With the sample formatter [get_info] returns the records of
    [foo_bar_store], and raises on [quotes_store]. *)
Example get_info_returns_or_raises :
  edges_of <$> @Raising.get_info sample_imports sample_docformatter
                 (Generator_init foo_bar_store None) "zato"
  = edges_of <$> @get_info sample_imports
                   (Generator_init foo_bar_store None) "zato"
  ∧ length <$> (fst <$> @Raising.get_info sample_imports sample_docformatter
                          (Generator_init foo_bar_store None) "zato")
    = Ok 2
  ∧ edges_of <$> @Raising.get_info sample_imports sample_docformatter
                   (Generator_init quotes_store None) "zato"
    = Raise AssertionError.
Proof. by vm_compute. Qed.
